(** * XXH32 reference implementation (xxhash32-ref.c): model and properties

    The C file is one pure function, [XXH32], with four static helpers.
    It is embedded here as Rocq functions over [Z]:

    - a [uint32_t] is a [Z] in [0, 2^32) and every arithmetic operation
      writes its wrap-around out ([add32], [sub32], [mul32]);
    - a [size_t] is a [Z] in [0, 2^64) (an LP64 target), again with the
      wrap-around written out ([addsz], [subsz]);
    - the [input] pointer is an [option]: [None] is [NULL], [Some p] points
      at an object holding the bytes [p], whose capacity is [length p];
    - what C leaves undefined is a [fault]: reading past the capacity of the
      buffer, and shifting a 32-bit value by 32 bits or more;
    - the reads of the buffer and the calls of [XXH_rotl32] are recorded, in
      program order, in an event log, so that "which bytes were consumed,
      and in which order" and "which rotation amounts are used" are
      statements about the program's runs.

    C leaves the evaluation order of the operands of [|] and [+]
    unspecified; the model evaluates them left to right. *)

From Stdlib Require Import ZArith List Lia Bool.
From Stdlib.Strings Require Import Byte.
Import ListNotations.
Local Open Scope Z_scope.

(* ================================================================== *)
(** ** Events, faults and the run monad *)

Inductive event : Type :=
| EvLoad (index : Z)      (* p[index] was read *)
| EvRotl (amount : Z).    (* XXH_rotl32 was entered with this amount *)

Inductive fault : Type :=
| OutOfBounds (index : Z)   (* read outside the object p points at *)
| ShiftCount (amount : Z)   (* 32-bit shift by 32 or more *)
| OutOfFuel.                (* a loop of the model was cut short *)

Inductive result (A : Type) : Type :=
| Ok (a : A)
| Fault (f : fault).
Arguments Ok {A} a.
Arguments Fault {A} f.

(** A computation extends the log it is given and ends in a value or in a
    fault; the log survives a fault. *)
Definition M (A : Type) : Type := list event -> result A * list event.

Definition ret {A} (a : A) : M A := fun tr => (Ok a, tr).

Definition bind {A B} (m : M A) (f : A -> M B) : M B :=
  fun tr =>
    match m tr with
    | (Ok a, tr') => f a tr'
    | (Fault e, tr') => (Fault e, tr')
    end.

Definition fail {A} (e : fault) : M A := fun tr => (Fault e, tr).

Definition emit (ev : event) : M unit := fun tr => (Ok tt, tr ++ [ev]).

Notation "x <- m ;; k" := (bind m (fun x => k))
  (at level 61, m at next level, right associativity).
Notation "m ;;; k" := (bind m (fun _ => k))
  (at level 61, right associativity).

(** [while (cond) body], unrolled at most [fuel] times. *)
Fixpoint while {S : Type} (fuel : nat) (cond : S -> bool) (body : S -> M S)
         (s : S) : M S :=
  if cond s then
    match fuel with
    | O => fail OutOfFuel
    | Datatypes.S fuel' => s' <- body s ;; while fuel' cond body s'
    end
  else ret s.

(** The value a run returns, and the loads and rotations of a log. *)
Definition value_of {A} (m : M A) : result A := fst (m []).

Definition loads_of (tr : list event) : list Z :=
  flat_map (fun ev => match ev with EvLoad i => [i] | EvRotl _ => [] end) tr.

Definition rotls_of (tr : list event) : list Z :=
  flat_map (fun ev => match ev with EvRotl a => [a] | EvLoad _ => [] end) tr.

(* ================================================================== *)
(** ** The fragment of C the file uses *)

Definition U32 : Z := 2 ^ 32.
Definition SIZE : Z := 2 ^ 64.

Definition add32 (a b : Z) : Z := (a + b) mod U32.
Definition sub32 (a b : Z) : Z := (a - b) mod U32.
Definition mul32 (a b : Z) : Z := (a * b) mod U32.
Definition addsz (a b : Z) : Z := (a + b) mod SIZE.
Definition subsz (a b : Z) : Z := (a - b) mod SIZE.

(** [(uint32_t) x] and [(uint8_t) x]. *)
Definition to_u32 (x : Z) : Z := x mod U32.

Definition to_u8 (x : Z) : byte :=
  match Byte.of_N (Z.to_N (x mod 256)) with
  | Some b => b
  | None => x00
  end.

Definition byte_val (b : byte) : Z := Z.of_N (Byte.to_N b).

(** [value << amount] and [value >> amount] on [uint32_t]. *)
Definition shl32 (value amount : Z) : M Z :=
  if amount <? 32 then ret (Z.shiftl value amount mod U32)
  else fail (ShiftCount amount).

Definition shr32 (value amount : Z) : M Z :=
  if amount <? 32 then ret (Z.shiftr value amount)
  else fail (ShiftCount amount).

(** [p[index]] for [uint8_t const *p]. *)
Definition load (p : list byte) (index : Z) : M Z :=
  match nth_error p (Z.to_nat index) with
  | Some b => emit (EvLoad index) ;;; ret (byte_val b)
  | None => fail (OutOfBounds index)
  end.

(* ================================================================== *)
(** ** The program *)

Definition PRIME32_1 : Z := 0x9E3779B1.
Definition PRIME32_2 : Z := 0x85EBCA77.
Definition PRIME32_3 : Z := 0xC2B2AE3D.
Definition PRIME32_4 : Z := 0x27D4EB2F.
Definition PRIME32_5 : Z := 0x165667B1.

(** [return (value << amount) | (value >> (32 - amount));] *)
Definition XXH_rotl32 (value amount : Z) : M Z :=
  emit (EvRotl amount) ;;;
  hi <- shl32 value amount ;;
  lo <- shr32 value (sub32 32 amount) ;;
  ret (Z.lor hi lo).

Definition XXH_read32 (p : list byte) (offset : Z) : M Z :=
  b0 <- load p (addsz offset 0) ;;
  b1 <- load p (addsz offset 1) ;;
  s1 <- shl32 b1 8 ;;
  b2 <- load p (addsz offset 2) ;;
  s2 <- shl32 b2 16 ;;
  b3 <- load p (addsz offset 3) ;;
  s3 <- shl32 b3 24 ;;
  ret (Z.lor (Z.lor (Z.lor b0 s1) s2) s3).

Definition XXH32_round (lane input : Z) : M Z :=
  let lane := add32 lane (mul32 input PRIME32_2) in
  lane <- XXH_rotl32 lane 13 ;;
  let lane := mul32 lane PRIME32_1 in
  ret lane.

Definition XXH32_avalanche (hash : Z) : M Z :=
  s <- shr32 hash 15 ;;
  let hash := Z.lxor hash s in
  let hash := mul32 hash PRIME32_2 in
  s <- shr32 hash 13 ;;
  let hash := Z.lxor hash s in
  let hash := mul32 hash PRIME32_3 in
  s <- shr32 hash 16 ;;
  let hash := Z.lxor hash s in
  ret hash.

(** The locals of [XXH32] that its loops update. *)
Record bulk_state : Type := mk_bulk {
  lane1 : Z; lane2 : Z; lane3 : Z; lane4 : Z;
  b_offset : Z; b_remaining : Z
}.

Record tail_state : Type := mk_tail {
  hash : Z; offset : Z; remaining : Z
}.

(** Body of [while (remaining >= 16)]. *)
Definition bulk_body (p : list byte) (s : bulk_state) : M bulk_state :=
  let offset := b_offset s in
  w <- XXH_read32 p offset ;; l1 <- XXH32_round (lane1 s) w ;;
  let offset := addsz offset 4 in
  w <- XXH_read32 p offset ;; l2 <- XXH32_round (lane2 s) w ;;
  let offset := addsz offset 4 in
  w <- XXH_read32 p offset ;; l3 <- XXH32_round (lane3 s) w ;;
  let offset := addsz offset 4 in
  w <- XXH_read32 p offset ;; l4 <- XXH32_round (lane4 s) w ;;
  let offset := addsz offset 4 in
  ret (mk_bulk l1 l2 l3 l4 offset (subsz (b_remaining s) 16)).

(** Body of [while (remaining >= 4)]. *)
Definition word_body (p : list byte) (s : tail_state) : M tail_state :=
  w <- XXH_read32 p (offset s) ;;
  let hash := add32 (hash s) (mul32 w PRIME32_3) in
  hash <- XXH_rotl32 hash 17 ;;
  let hash := mul32 hash PRIME32_4 in
  ret (mk_tail hash (addsz (offset s) 4) (subsz (remaining s) 4)).

(** Body of [while (remaining != 0)]. *)
Definition byte_body (p : list byte) (s : tail_state) : M tail_state :=
  b <- load p (offset s) ;;
  let hash := add32 (hash s) (mul32 b PRIME32_5) in
  hash <- XXH_rotl32 hash 11 ;;
  let hash := mul32 hash PRIME32_1 in
  ret (mk_tail hash (addsz (offset s) 1) (subsz (remaining s) 1)).

Definition bulk_cond (s : bulk_state) : bool := 16 <=? b_remaining s.
Definition word_cond (s : tail_state) : bool := 4 <=? remaining s.
Definition byte_cond (s : tail_state) : bool := negb (remaining s =? 0).

(** Every iteration of every loop takes at least one byte off [remaining]. *)
Definition fuel_for (remaining : Z) : nat := Z.to_nat remaining.

(** Lines 110-129: the [if (remaining >= 16) ... else ...] statement. *)
Definition XXH32_bulk (p : list byte) (length seed : Z) : M tail_state :=
  let remaining := length in
  let offset := 0 in
  if 16 <=? remaining then
    let s := {| lane1 := add32 (add32 seed PRIME32_1) PRIME32_2;
                lane2 := add32 seed PRIME32_2;
                lane3 := add32 seed 0;
                lane4 := sub32 seed PRIME32_1;
                b_offset := offset; b_remaining := remaining |} in
    s <- while (fuel_for remaining) bulk_cond (bulk_body p) s ;;
    r1 <- XXH_rotl32 (lane1 s) 1 ;;
    r2 <- XXH_rotl32 (lane2 s) 7 ;;
    r3 <- XXH_rotl32 (lane3 s) 12 ;;
    r4 <- XXH_rotl32 (lane4 s) 18 ;;
    ret (mk_tail (add32 (add32 (add32 r1 r2) r3) r4)
                 (b_offset s) (b_remaining s))
  else
    ret (mk_tail (add32 seed PRIME32_5) offset remaining).

(** Lines 131-148: [hash += (uint32_t) length;] and the two tail loops. *)
Definition XXH32_tail (p : list byte) (length : Z) (s : tail_state)
  : M tail_state :=
  let s := mk_tail (add32 (hash s) (to_u32 length)) (offset s) (remaining s) in
  s <- while (fuel_for (remaining s)) word_cond (word_body p) s ;;
  while (fuel_for (remaining s)) byte_cond (byte_body p) s.

Definition XXH32 (input : option (list byte)) (length seed : Z) : M Z :=
  match input with
  | None => XXH32_avalanche (add32 seed PRIME32_5)
  | Some p =>
      s <- XXH32_bulk p length seed ;;
      s <- XXH32_tail p length s ;;
      XXH32_avalanche (hash s)
  end.

(** The self test: the loop of [main] that fills [test_data]. *)
Definition TEST_DATA_SIZE : nat := 101.

Fixpoint fill_test_data (n : nat) (byte_gen : Z) : list byte :=
  match n with
  | O => []
  | Datatypes.S n' =>
      to_u8 (Z.shiftr byte_gen 24)
        :: fill_test_data n' (mul32 byte_gen byte_gen)
  end.

Definition test_data : list byte := fill_test_data TEST_DATA_SIZE PRIME32_1.

(** [test_sequence] leaves the process with status 1 when the hash is not
    the expected one; here it says whether the check passes. *)
Definition test_sequence (input : option (list byte))
           (length seed expected : Z) : bool :=
  match value_of (XXH32 input length seed) with
  | Ok result => result =? expected
  | Fault _ => false
  end.

(** The exit status of [main]. *)
Definition main : Z :=
  let prime := PRIME32_1 in
  if test_sequence None 0 0 0x02CC5D05
     && test_sequence None 0 prime 0x36B78AE7
     && test_sequence (Some test_data) 1 0 0xB85CBEE5
     && test_sequence (Some test_data) 1 prime 0xD5845D64
     && test_sequence (Some test_data) 14 0 0xE5AA0AB4
     && test_sequence (Some test_data) 14 prime 0x4481951D
     && test_sequence (Some test_data) (Z.of_nat TEST_DATA_SIZE) 0
                      0x1F1AA412
     && test_sequence (Some test_data) (Z.of_nat TEST_DATA_SIZE) prime
                      0x498EC8E2
  then 0 else 1.

(* ================================================================== *)
(** ** What the program is compared with: the algorithm as arithmetic

    The functions of [Spec] follow the design document, not the C file:
    pure functions over [Z] with no faults, no wrap-around of offsets and
    no loop state; the number of iterations and the offsets are explicit. *)

Module Spec.

(** [start, start + step, ..., start + (n-1) * step]. *)
Fixpoint steps (start step : Z) (n : nat) : list Z :=
  match n with
  | O => []
  | Datatypes.S n' => start :: steps (start + step) step n'
  end.

Definition rotate_left (value amount : Z) : Z :=
  Z.lor (Z.shiftl value amount mod U32) (Z.shiftr value (32 - amount)).

Definition byte_at (p : list byte) (i : Z) : Z :=
  byte_val (nth (Z.to_nat i) p x00).

Definition read_u32_le (p : list byte) (off : Z) : Z :=
  byte_at p off + byte_at p (off + 1) * 2 ^ 8
  + byte_at p (off + 2) * 2 ^ 16 + byte_at p (off + 3) * 2 ^ 24.

Definition round (lane input : Z) : Z :=
  (rotate_left ((lane + input * PRIME32_2) mod U32) 13 * PRIME32_1) mod U32.

Definition avalanche (h : Z) : Z :=
  let h := Z.lxor h (Z.shiftr h 15) in
  let h := (h * PRIME32_2) mod U32 in
  let h := Z.lxor h (Z.shiftr h 13) in
  let h := (h * PRIME32_3) mod U32 in
  let h := Z.lxor h (Z.shiftr h 16) in
  h.

(** The four lanes, as a tuple. *)
Definition lanes : Type := (Z * Z * Z * Z)%type.

Definition init_lanes (seed : Z) : lanes :=
  ((seed + PRIME32_1 + PRIME32_2) mod U32,
   (seed + PRIME32_2) mod U32,
   (seed + 0) mod U32,
   (seed - PRIME32_1) mod U32).

(** One 16-byte block at [off]: four words in sequence, one per lane. *)
Definition block_step (p : list byte) (l : lanes) (off : Z) : lanes :=
  let '(l1, l2, l3, l4) := l in
  (round l1 (read_u32_le p off),
   round l2 (read_u32_le p (off + 4)),
   round l3 (read_u32_le p (off + 8)),
   round l4 (read_u32_le p (off + 12))).

Definition combine (l : lanes) : Z :=
  let '(l1, l2, l3, l4) := l in
  (rotate_left l1 1 + rotate_left l2 7
   + rotate_left l3 12 + rotate_left l4 18) mod U32.

Definition word_step (p : list byte) (h off : Z) : Z :=
  (rotate_left ((h + read_u32_le p off * PRIME32_3) mod U32) 17
   * PRIME32_4) mod U32.

Definition byte_step (p : list byte) (h off : Z) : Z :=
  (rotate_left ((h + byte_at p off * PRIME32_5) mod U32) 11
   * PRIME32_1) mod U32.

(** The accumulator after the bulk phase of a [length]-byte input, or
    directly for a short one. *)
Definition bulk_hash (p : list byte) (length seed : Z) : Z :=
  if 16 <=? length then
    combine (fold_left (block_step p)
                       (steps 0 16 (Z.to_nat (length / 16)))
                       (init_lanes seed))
  else (seed + PRIME32_5) mod U32.

(** The tail: the words, then the bytes, of the [rem] bytes at [off]. *)
Definition tail_hash (p : list byte) (h off rem : Z) : Z :=
  let h := fold_left (word_step p) (steps off 4 (Z.to_nat (rem / 4))) h in
  fold_left (byte_step p)
            (steps (off + 4 * (rem / 4)) 1 (Z.to_nat (rem mod 4))) h.

Definition XXH32_value (p : list byte) (length seed : Z) : Z :=
  let h := bulk_hash p length seed in
  let h := (h + length) mod U32 in
  avalanche (tail_hash p h (16 * (length / 16)) (length mod 16)).

End Spec.
Import Spec.

(** Between the lanes of the loop state and the tuple of [Spec]. *)
Definition lanes_of (s : bulk_state) : lanes :=
  (lane1 s, lane2 s, lane3 s, lane4 s).

Definition bulk_of (l : lanes) (off rem : Z) : bulk_state :=
  let '(l1, l2, l3, l4) := l in mk_bulk l1 l2 l3 l4 off rem.

(** One lane of the bulk phase: lane [d / 4 + 1] reads the word at [d]
    bytes into each block. *)
Definition lane_step (p : list byte) (d : Z) (lane off : Z) : Z :=
  round lane (read_u32_le p (off + d)).

(* ================================================================== *)
(** ** Statements about runs *)

(** [m] returns [a], without a fault, after reading exactly the bytes at
    [ld], in that order. *)
Definition yields {A} (m : M A) (a : A) (ld : list Z) : Prop :=
  forall tr, exists ev, m tr = (Ok a, tr ++ ev) /\ loads_of ev = ld.

(** Whatever the outcome of [m]: it only appends events that satisfy [E],
    a fault satisfies [F] and a returned value satisfies [Q]. *)
Definition sat {A} (E : event -> Prop) (F : fault -> Prop) (Q : A -> Prop)
           (m : M A) : Prop :=
  forall tr, exists ev,
    snd (m tr) = tr ++ ev /\ Forall E ev /\
    match fst (m tr) with
    | Ok a => Q a
    | Fault f => F f
    end.

(** The two buffers hold the same bytes at every index below [n]. *)
Definition agree (n : Z) (p q : list byte) : Prop :=
  forall i, 0 <= i < n -> nth_error p (Z.to_nat i) = nth_error q (Z.to_nat i).

(** Two [input] arguments that a caller cannot tell apart on a request for
    [n] bytes: both [NULL], or equal on their first [n] bytes. *)
Definition same_input (n : Z) (i1 i2 : option (list byte)) : Prop :=
  match i1, i2 with
  | None, None => True
  | Some p, Some q => agree n p q
  | _, _ => False
  end.

(** The rotation amounts of the file. *)
Definition rotl_amounts : list Z := [1; 7; 11; 12; 13; 17; 18].

(** What a run on a [len]-byte request may log, and how it may fail: reads
    below [len] only, rotations by the amounts above only, and no fault
    but a read that is below [len] and outside the buffer. *)
Definition event_ok (len : Z) (ev : event) : Prop :=
  match ev with
  | EvLoad i => 0 <= i < len
  | EvRotl a => In a rotl_amounts
  end.

Definition fault_ok (p : list byte) (len : Z) (f : fault) : Prop :=
  match f with
  | OutOfBounds i => Z.of_nat (length p) <= i < len
  | ShiftCount _ => False
  | OutOfFuel => False
  end.

(** No fault at all. *)
Definition no_fault (f : fault) : Prop := False.

(** The loop invariant [offset + remaining == length]. *)
Definition in_bounds (len off rem : Z) : Prop :=
  0 <= off /\ 0 <= rem /\ off + rem = len.

Definition bulk_inv (len : Z) (s : bulk_state) : Prop :=
  in_bounds len (b_offset s) (b_remaining s).

Definition tail_inv (len : Z) (s : tail_state) : Prop :=
  in_bounds len (offset s) (remaining s).

(* ================================================================== *)
(** ** Arithmetic *)

Lemma U32_eq : U32 = 4294967296.
Proof. reflexivity. Qed.

Lemma byte_val_range (b : byte) : 0 <= byte_val b < 256.
Proof.
  unfold byte_val. pose proof (Byte.to_N_bounded b). lia.
Qed.

Lemma byte_at_range (p : list byte) (i : Z) : 0 <= byte_at p i < 256.
Proof. apply byte_val_range. Qed.

Lemma lor_shiftl_add (a b n : Z) :
  0 <= n -> 0 <= a < 2 ^ n -> Z.lor a (Z.shiftl b n) = a + b * 2 ^ n.
Proof.
  intros Hn Ha.
  rewrite <- Z.add_lor_land, Z.shiftl_mul_pow2 by assumption.
  assert (Hland : Z.land a (b * 2 ^ n) = 0); [| rewrite Hland; lia].
  rewrite <- Z.shiftl_mul_pow2 by assumption.
  apply Z.bits_inj'. intros i Hi.
  rewrite Z.land_spec, Z.bits_0.
  destruct (Z.lt_ge_cases i n) as [Hlt | Hge].
  - rewrite Z.shiftl_spec_low by assumption. apply andb_false_r.
  - rewrite <- (Z.mod_small a (2 ^ n)) by assumption.
    rewrite Z.mod_pow2_bits_high by lia. reflexivity.
Qed.

Lemma addsz_small (a b : Z) : 0 <= a + b < SIZE -> addsz a b = a + b.
Proof. intros H. unfold addsz. apply Z.mod_small. exact H. Qed.

Lemma subsz_small (a b : Z) : 0 <= a - b < SIZE -> subsz a b = a - b.
Proof. intros H. unfold subsz. apply Z.mod_small. exact H. Qed.

(** Offsets that stay below [SIZE] do not wrap. *)
Ltac size_simpl :=
  repeat match goal with
         | |- context [addsz ?a ?b] => rewrite (addsz_small a b) by lia
         | |- context [subsz ?a ?b] => rewrite (subsz_small a b) by lia
         end.

Lemma steps_app (start step : Z) (n m : nat) :
  steps start step (n + m)
  = steps start step n ++ steps (start + Z.of_nat n * step) step m.
Proof.
  revert start. induction n as [| n IH]; intros start.
  - simpl. f_equal. lia.
  - cbn [Nat.add steps app]. rewrite IH. do 3 f_equal. lia.
Qed.

Lemma steps_seq (n : nat) : steps 0 1 n = map Z.of_nat (seq 0 n).
Proof.
  assert (H : forall k, steps (Z.of_nat k) 1 n = map Z.of_nat (seq k n)).
  { induction n as [| n IH]; intros k; simpl; [reflexivity |].
    f_equal. rewrite <- IH. f_equal. lia. }
  apply (H 0%nat).
Qed.

Lemma loads_of_app (t1 t2 : list event) :
  loads_of (t1 ++ t2) = loads_of t1 ++ loads_of t2.
Proof. apply flat_map_app. Qed.

(* ================================================================== *)
(** ** Rules for [yields] *)

Lemma yields_ret {A} (a : A) : yields (ret a) a [].
Proof. intros tr. exists []. rewrite app_nil_r. split; reflexivity. Qed.

Lemma yields_bind {A B} (m : M A) (f : A -> M B) a b l1 l2 :
  yields m a l1 -> yields (f a) b l2 -> yields (bind m f) b (l1 ++ l2).
Proof.
  intros Hm Hf tr.
  destruct (Hm tr) as [e1 [E1 L1]].
  destruct (Hf (tr ++ e1)) as [e2 [E2 L2]].
  exists (e1 ++ e2). unfold bind. rewrite E1, E2, app_assoc, loads_of_app.
  split; congruence.
Qed.

Lemma yields_eq {A} (m : M A) a a' l l' :
  yields m a l -> a = a' -> l = l' -> yields m a' l'.
Proof. intros H -> ->. exact H. Qed.

Lemma yields_load (p : list byte) (i : Z) :
  0 <= i < Z.of_nat (length p) ->
  yields (load p i) (byte_at p i) [i].
Proof.
  intros Hi tr. unfold load, byte_at.
  rewrite (nth_error_nth' p x00) by lia.
  exists [EvLoad i]. split; reflexivity.
Qed.

Lemma yields_shl32 (v n : Z) :
  0 <= n < 32 -> 0 <= v -> v * 2 ^ n < U32 ->
  yields (shl32 v n) (v * 2 ^ n) [].
Proof.
  intros Hn Hv Hlt. unfold shl32.
  destruct (Z.ltb_spec n 32); [| lia].
  rewrite Z.shiftl_mul_pow2, Z.mod_small by nia.
  apply yields_ret.
Qed.

Lemma yields_shr32 (v n : Z) :
  n < 32 -> yields (shr32 v n) (Z.shiftr v n) [].
Proof.
  intros Hn. unfold shr32.
  destruct (Z.ltb_spec n 32); [| lia].
  apply yields_ret.
Qed.

Lemma yields_rotl (v a : Z) :
  1 <= a <= 31 -> yields (XXH_rotl32 v a) (rotate_left v a) [].
Proof.
  intros Ha tr. unfold XXH_rotl32, rotate_left, bind, emit, shl32, shr32, ret.
  unfold sub32. rewrite (Z.mod_small (32 - a)) by (rewrite U32_eq; lia).
  destruct (Z.ltb_spec a 32); [| lia].
  destruct (Z.ltb_spec (32 - a) 32); [| lia].
  exists [EvRotl a]. split; reflexivity.
Qed.

Lemma yields_read32 (p : list byte) (off : Z) :
  0 <= off -> off + 3 < Z.of_nat (length p) -> off + 3 < SIZE ->
  yields (XXH_read32 p off) (read_u32_le p off)
         [off; off + 1; off + 2; off + 3].
Proof.
  intros H0 Hp Hs. unfold XXH_read32. size_simpl. rewrite Z.add_0_r.
  pose proof (byte_at_range p off) as R0.
  pose proof (byte_at_range p (off + 1)) as R1.
  pose proof (byte_at_range p (off + 2)) as R2.
  pose proof (byte_at_range p (off + 3)) as R3.
  eapply yields_eq.
  - eapply yields_bind; [apply yields_load; lia |].
    eapply yields_bind; [apply yields_load; lia |].
    eapply yields_bind; [apply (yields_shl32 _ 8); rewrite ?U32_eq; lia |].
    eapply yields_bind; [apply yields_load; lia |].
    eapply yields_bind; [apply (yields_shl32 _ 16); rewrite ?U32_eq; lia |].
    eapply yields_bind; [apply yields_load; lia |].
    eapply yields_bind; [apply (yields_shl32 _ 24); rewrite ?U32_eq; lia |].
    apply yields_ret.
  - unfold read_u32_le.
    rewrite <- (Z.shiftl_mul_pow2 (byte_at p (off + 1)) 8) by lia.
    rewrite <- (Z.shiftl_mul_pow2 (byte_at p (off + 2)) 16) by lia.
    rewrite <- (Z.shiftl_mul_pow2 (byte_at p (off + 3)) 24) by lia.
    rewrite (lor_shiftl_add (byte_at p off)) by lia.
    rewrite (lor_shiftl_add _ (byte_at p (off + 2))) by lia.
    rewrite (lor_shiftl_add _ (byte_at p (off + 3))) by lia.
    rewrite !Z.shiftl_mul_pow2 by lia. reflexivity.
  - reflexivity.
Qed.

Lemma yields_round (lane input : Z) :
  yields (XXH32_round lane input) (round lane input) [].
Proof.
  unfold XXH32_round, round.
  eapply yields_eq.
  - eapply yields_bind; [apply yields_rotl; lia |]. apply yields_ret.
  - unfold mul32, add32. rewrite Zplus_mod_idemp_r. reflexivity.
  - reflexivity.
Qed.

Lemma yields_avalanche (h : Z) : yields (XXH32_avalanche h) (avalanche h) [].
Proof.
  unfold XXH32_avalanche, avalanche.
  eapply yields_eq.
  - eapply yields_bind; [apply yields_shr32; lia |].
    eapply yields_bind; [apply yields_shr32; lia |].
    eapply yields_bind; [apply yields_shr32; lia |].
    apply yields_ret.
  - reflexivity.
  - reflexivity.
Qed.

Lemma while_done {S} (fuel : nat) (cond : S -> bool) (body : S -> M S) s :
  cond s = false -> while fuel cond body s = ret s.
Proof. intros H. destruct fuel; cbn [while]; rewrite H; reflexivity. Qed.

Lemma while_step {S} (fuel : nat) (cond : S -> bool) (body : S -> M S) s :
  cond s = true ->
  while (Datatypes.S fuel) cond body s
  = bind (body s) (while fuel cond body).
Proof. intros H. cbn [while]. rewrite H. reflexivity. Qed.

(** *** The three loops *)

Lemma yields_bulk_body (p : list byte) (s : bulk_state) :
  0 <= b_offset s -> 16 <= b_remaining s ->
  b_offset s + b_remaining s <= Z.of_nat (length p) ->
  b_offset s + b_remaining s < SIZE ->
  yields (bulk_body p s)
         (bulk_of (block_step p (lanes_of s) (b_offset s))
                  (b_offset s + 16) (b_remaining s - 16))
         (steps (b_offset s) 1 16).
Proof.
  intros Ho Hr Hp Hs. destruct s as [a b c d off rem].
  cbn [b_offset b_remaining] in *.
  unfold bulk_body. cbn [b_offset b_remaining lane1 lane2 lane3 lane4].
  size_simpl.
  eapply yields_eq.
  - eapply yields_bind; [apply yields_read32; lia |].
    eapply yields_bind; [apply yields_round |].
    eapply yields_bind; [apply yields_read32; lia |].
    eapply yields_bind; [apply yields_round |].
    eapply yields_bind; [apply yields_read32; lia |].
    eapply yields_bind; [apply yields_round |].
    eapply yields_bind; [apply yields_read32; lia |].
    eapply yields_bind; [apply yields_round |].
    apply yields_ret.
  - unfold bulk_of, block_step, lanes_of. cbn.
    rewrite <- !Z.add_assoc. reflexivity.
  - cbn [steps app]. rewrite <- !Z.add_assoc. reflexivity.
Qed.

Lemma yields_bulk_loop (p : list byte) (n : nat) :
  forall (fuel : nat) (s : bulk_state),
    (n <= fuel)%nat -> 0 <= b_offset s ->
    16 * Z.of_nat n <= b_remaining s < 16 * Z.of_nat n + 16 ->
    b_offset s + b_remaining s <= Z.of_nat (length p) ->
    b_offset s + b_remaining s < SIZE ->
    yields (while fuel bulk_cond (bulk_body p) s)
           (bulk_of (fold_left (block_step p) (steps (b_offset s) 16 n)
                               (lanes_of s))
                    (b_offset s + 16 * Z.of_nat n)
                    (b_remaining s - 16 * Z.of_nat n))
           (steps (b_offset s) 1 (16 * n)).
Proof.
  induction n as [| n IH]; intros fuel s Hf Ho Hr Hp Hs.
  - rewrite while_done by (unfold bulk_cond; apply Z.leb_gt; lia).
    eapply yields_eq; [apply yields_ret | | reflexivity].
    destruct s; cbn. f_equal; lia.
  - destruct fuel as [| fuel]; [lia |].
    rewrite while_step by (unfold bulk_cond; apply Z.leb_le; lia).
    eapply yields_eq.
    + eapply yields_bind; [apply yields_bulk_body; lia |].
      apply (IH fuel); destruct s as [a b c d off rem];
        cbn [bulk_of block_step lanes_of b_offset b_remaining
             lane1 lane2 lane3 lane4] in *; lia.
    + destruct s as [a b c d off rem].
      cbn [bulk_of block_step lanes_of b_offset b_remaining
           lane1 lane2 lane3 lane4 steps fold_left].
      f_equal; lia.
    + replace (16 * Datatypes.S n)%nat with (16 + 16 * n)%nat by lia.
      rewrite steps_app.
      destruct s as [a b c d off rem].
      cbn [bulk_of block_step lanes_of b_offset b_remaining].
      do 2 f_equal.
Qed.

Lemma yields_word_body (p : list byte) (s : tail_state) :
  0 <= offset s -> 4 <= remaining s ->
  offset s + remaining s <= Z.of_nat (length p) ->
  offset s + remaining s < SIZE ->
  yields (word_body p s)
         (mk_tail (word_step p (hash s) (offset s))
                  (offset s + 4) (remaining s - 4))
         (steps (offset s) 1 4).
Proof.
  intros Ho Hr Hp Hs. destruct s as [h off rem].
  cbn [hash offset remaining] in *.
  unfold word_body. cbn [hash offset remaining]. size_simpl.
  eapply yields_eq.
  - eapply yields_bind; [apply yields_read32; lia |].
    eapply yields_bind; [apply yields_rotl; lia |].
    apply yields_ret.
  - unfold word_step, add32, mul32. rewrite Zplus_mod_idemp_r. reflexivity.
  - cbn [steps app]. rewrite <- !Z.add_assoc. reflexivity.
Qed.

Lemma yields_byte_body (p : list byte) (s : tail_state) :
  0 <= offset s -> 1 <= remaining s ->
  offset s + remaining s <= Z.of_nat (length p) ->
  offset s + remaining s < SIZE ->
  yields (byte_body p s)
         (mk_tail (byte_step p (hash s) (offset s))
                  (offset s + 1) (remaining s - 1))
         (steps (offset s) 1 1).
Proof.
  intros Ho Hr Hp Hs. destruct s as [h off rem].
  cbn [hash offset remaining] in *.
  unfold byte_body. cbn [hash offset remaining]. size_simpl.
  eapply yields_eq.
  - eapply yields_bind; [apply yields_load; lia |].
    eapply yields_bind; [apply yields_rotl; lia |].
    apply yields_ret.
  - unfold byte_step, add32, mul32. rewrite Zplus_mod_idemp_r. reflexivity.
  - reflexivity.
Qed.

Lemma yields_word_loop (p : list byte) (n : nat) :
  forall (fuel : nat) (s : tail_state),
    (n <= fuel)%nat -> 0 <= offset s ->
    4 * Z.of_nat n <= remaining s < 4 * Z.of_nat n + 4 ->
    offset s + remaining s <= Z.of_nat (length p) ->
    offset s + remaining s < SIZE ->
    yields (while fuel word_cond (word_body p) s)
           (mk_tail (fold_left (word_step p) (steps (offset s) 4 n) (hash s))
                    (offset s + 4 * Z.of_nat n)
                    (remaining s - 4 * Z.of_nat n))
           (steps (offset s) 1 (4 * n)).
Proof.
  induction n as [| n IH]; intros fuel s Hf Ho Hr Hp Hs.
  - rewrite while_done by (unfold word_cond; apply Z.leb_gt; lia).
    eapply yields_eq; [apply yields_ret | | reflexivity].
    destruct s; cbn. f_equal; lia.
  - destruct fuel as [| fuel]; [lia |].
    rewrite while_step by (unfold word_cond; apply Z.leb_le; lia).
    destruct s as [h off rem]. cbn [hash offset remaining] in *.
    eapply yields_eq.
    + eapply yields_bind;
        [apply yields_word_body; cbn [hash offset remaining]; lia |].
      apply (IH fuel); cbn [hash offset remaining]; lia.
    + cbn [hash offset remaining steps fold_left]. f_equal; lia.
    + replace (4 * Datatypes.S n)%nat with (4 + 4 * n)%nat by lia.
      rewrite steps_app. cbn [hash offset remaining]. do 2 f_equal.
Qed.

Lemma yields_byte_loop (p : list byte) (n : nat) :
  forall (fuel : nat) (s : tail_state),
    (n <= fuel)%nat -> 0 <= offset s ->
    remaining s = Z.of_nat n ->
    offset s + remaining s <= Z.of_nat (length p) ->
    offset s + remaining s < SIZE ->
    yields (while fuel byte_cond (byte_body p) s)
           (mk_tail (fold_left (byte_step p) (steps (offset s) 1 n) (hash s))
                    (offset s + Z.of_nat n) 0)
           (steps (offset s) 1 n).
Proof.
  induction n as [| n IH]; intros fuel s Hf Ho Hr Hp Hs.
  - rewrite while_done
      by (unfold byte_cond; rewrite Hr; reflexivity).
    eapply yields_eq; [apply yields_ret | | reflexivity].
    destruct s; cbn in *. f_equal; lia.
  - destruct fuel as [| fuel]; [lia |].
    rewrite while_step
      by (unfold byte_cond; apply negb_true_iff, Z.eqb_neq; lia).
    destruct s as [h off rem]. cbn [hash offset remaining] in *.
    eapply yields_eq.
    + eapply yields_bind;
        [apply yields_byte_body; cbn [hash offset remaining]; lia |].
      apply (IH fuel); cbn [hash offset remaining]; lia.
    + cbn [hash offset remaining steps fold_left]. f_equal; lia.
    + reflexivity.
Qed.

(** *** The phases and the whole function *)

Lemma yields_tail (p : list byte) (len : Z) (s : tail_state) :
  0 <= offset s -> 0 <= remaining s ->
  offset s + remaining s <= Z.of_nat (length p) ->
  offset s + remaining s < SIZE ->
  yields (XXH32_tail p len s)
         (mk_tail (tail_hash p ((hash s + len) mod U32)
                             (offset s) (remaining s))
                  (offset s + remaining s) 0)
         (steps (offset s) 1 (Z.to_nat (remaining s))).
Proof.
  intros Ho Hr Hp Hs. destruct s as [h off rem].
  cbn [hash offset remaining] in *.
  unfold XXH32_tail, fuel_for. cbn [hash offset remaining].
  pose proof (Z.div_mod rem 4 ltac:(lia)) as Hdm.
  pose proof (Z.mod_pos_bound rem 4 ltac:(lia)) as Hm.
  assert (Hq : 0 <= rem / 4) by (apply Z.div_pos; lia).
  eapply yields_eq.
  - eapply yields_bind.
    + apply (yields_word_loop p (Z.to_nat (rem / 4)));
        cbn [hash offset remaining]; lia.
    + apply (yields_byte_loop p (Z.to_nat (rem mod 4)));
        cbn [hash offset remaining]; lia.
  - cbn [hash offset remaining]. unfold tail_hash, add32, to_u32.
    rewrite Zplus_mod_idemp_r, !Z2Nat.id by lia. f_equal. lia.
  - cbn [hash offset remaining]. rewrite Z2Nat.id by lia.
    replace (Z.to_nat rem)
      with (4 * Z.to_nat (rem / 4) + Z.to_nat (rem mod 4))%nat by lia.
    rewrite steps_app. do 2 f_equal. lia.
Qed.

Lemma init_lanes_eq (seed : Z) :
  (add32 (add32 seed PRIME32_1) PRIME32_2, add32 seed PRIME32_2,
   add32 seed 0, sub32 seed PRIME32_1) = init_lanes seed.
Proof.
  unfold init_lanes, add32, sub32. rewrite Zplus_mod_idemp_l. reflexivity.
Qed.

Lemma yields_bulk (p : list byte) (len seed : Z) :
  0 <= len <= Z.of_nat (length p) -> len < SIZE ->
  yields (XXH32_bulk p len seed)
         (mk_tail (bulk_hash p len seed) (16 * (len / 16)) (len mod 16))
         (steps 0 1 (16 * Z.to_nat (len / 16))).
Proof.
  intros Hp Hs. unfold XXH32_bulk, bulk_hash, fuel_for.
  pose proof (Z.div_mod len 16 ltac:(lia)) as Hdm.
  pose proof (Z.mod_pos_bound len 16 ltac:(lia)) as Hm.
  assert (Hq : 0 <= len / 16) by (apply Z.div_pos; lia).
  destruct (Z.leb_spec 16 len) as [Hge | Hlt].
  - set (n := Z.to_nat (len / 16)).
    set (L := fold_left (block_step p) (steps 0 16 n) (init_lanes seed)).
    rewrite <- (app_nil_r (steps 0 1 (16 * n))).
    apply yields_bind
      with (a := bulk_of L (0 + 16 * Z.of_nat n) (len - 16 * Z.of_nat n)).
    + subst L. rewrite <- init_lanes_eq.
      apply (yields_bulk_loop p n);
        cbn [b_offset b_remaining]; subst n; lia.
    + destruct L as [[[a b] c] d].
      cbn [bulk_of lane1 lane2 lane3 lane4 b_offset b_remaining].
      eapply yields_eq.
      * eapply yields_bind; [apply yields_rotl; lia |].
        eapply yields_bind; [apply yields_rotl; lia |].
        eapply yields_bind; [apply yields_rotl; lia |].
        eapply yields_bind; [apply yields_rotl; lia |].
        apply yields_ret.
      * unfold combine, add32.
        rewrite Zplus_mod_idemp_l, <- (Z.add_assoc (_ mod U32)).
        rewrite Zplus_mod_idemp_l, Z.add_assoc.
        f_equal; subst n; lia.
      * reflexivity.
  - assert (Hz : len / 16 = 0) by (apply Z.div_small; lia).
    rewrite Hz. cbn [Z.to_nat Nat.mul steps].
    eapply yields_eq; [apply yields_ret | | reflexivity].
    unfold add32. f_equal; lia.
Qed.

Lemma yields_XXH32 (p : list byte) (len seed : Z) :
  0 <= len <= Z.of_nat (length p) -> len < SIZE ->
  yields (XXH32 (Some p) len seed) (XXH32_value p len seed)
         (steps 0 1 (Z.to_nat len)).
Proof.
  intros Hp Hs. unfold XXH32, XXH32_value.
  pose proof (Z.div_mod len 16 ltac:(lia)) as Hdm.
  pose proof (Z.mod_pos_bound len 16 ltac:(lia)) as Hm.
  assert (Hq : 0 <= len / 16) by (apply Z.div_pos; lia).
  eapply yields_eq.
  - eapply yields_bind; [apply yields_bulk; lia |].
    eapply yields_bind;
      [apply yields_tail; cbn [hash offset remaining]; lia |].
    apply yields_avalanche.
  - reflexivity.
  - cbn [hash offset remaining]. rewrite app_nil_r.
    replace (Z.to_nat len)
      with (16 * Z.to_nat (len / 16) + Z.to_nat (len mod 16))%nat by lia.
    rewrite steps_app. do 2 f_equal. lia.
Qed.

(* ================================================================== *)
(** ** Rules for [sat] *)

Lemma sat_ret {A} E F (Q : A -> Prop) (a : A) : Q a -> sat E F Q (ret a).
Proof.
  intros H tr. exists []. cbn. rewrite app_nil_r. auto.
Qed.

Lemma sat_bind {A B} E F (Q1 : A -> Prop) (Q : B -> Prop)
      (m : M A) (f : A -> M B) :
  sat E F Q1 m -> (forall a, Q1 a -> sat E F Q (f a)) ->
  sat E F Q (bind m f).
Proof.
  intros Hm Hf tr. unfold bind.
  destruct (Hm tr) as [e1 [S1 [F1 R1]]].
  destruct (m tr) as [[a | e] tr'] eqn:Em; cbn [fst snd] in *; subst tr'.
  - destruct (Hf a R1 (tr ++ e1)) as [e2 [S2 [F2 R2]]].
    exists (e1 ++ e2). rewrite app_assoc. repeat split; auto.
    apply Forall_app; auto.
  - exists e1. auto.
Qed.

Lemma sat_weaken {A} E F (Q Q' : A -> Prop) (m : M A) :
  sat E F Q m -> (forall a, Q a -> Q' a) -> sat E F Q' m.
Proof.
  intros Hm HQ tr. destruct (Hm tr) as [ev [S1 [F1 R1]]].
  exists ev. repeat split; auto.
  destruct (fst (m tr)); auto.
Qed.

Lemma sat_faults {A} E (F F' : fault -> Prop) (Q : A -> Prop) (m : M A) :
  sat E F Q m -> (forall f, F f -> F' f) -> sat E F' Q m.
Proof.
  intros Hm HF tr. destruct (Hm tr) as [ev [S1 [F1 R1]]].
  exists ev. repeat split; auto.
  destruct (fst (m tr)); auto.
Qed.

Lemma fault_ok_fits (p : list byte) (len : Z) (f : fault) :
  len <= Z.of_nat (length p) -> fault_ok p len f -> no_fault f.
Proof.
  intros Hp. destruct f as [i | a |]; cbn; auto. lia.
Qed.

Lemma sat_load E F (Q : Z -> Prop) (p : list byte) (i : Z) :
  0 <= i -> E (EvLoad i) ->
  (Z.of_nat (length p) <= i -> F (OutOfBounds i)) ->
  (forall v, 0 <= v < 256 -> Q v) ->
  sat E F Q (load p i).
Proof.
  intros Hi HE HF HQ tr. unfold load.
  destruct (nth_error p (Z.to_nat i)) as [b |] eqn:En.
  - exists [EvLoad i]. cbn. repeat split; auto. apply HQ, byte_val_range.
  - exists []. cbn. rewrite app_nil_r. repeat split; auto.
    apply HF. apply nth_error_None in En. lia.
Qed.

Lemma sat_shl32 E F (Q : Z -> Prop) (v n : Z) :
  n < 32 -> Q (Z.shiftl v n mod U32) -> sat E F Q (shl32 v n).
Proof.
  intros Hn HQ. unfold shl32. destruct (Z.ltb_spec n 32); [| lia].
  apply sat_ret, HQ.
Qed.

Lemma sat_shr32 E F (Q : Z -> Prop) (v n : Z) :
  n < 32 -> Q (Z.shiftr v n) -> sat E F Q (shr32 v n).
Proof.
  intros Hn HQ. unfold shr32. destruct (Z.ltb_spec n 32); [| lia].
  apply sat_ret, HQ.
Qed.

Lemma sat_rotl (E : event -> Prop) F (Q : Z -> Prop) (v a : Z) :
  1 <= a <= 31 -> E (EvRotl a) -> Q (rotate_left v a) ->
  sat E F Q (XXH_rotl32 v a).
Proof.
  intros Ha HE HQ tr. destruct (yields_rotl v a Ha tr) as [ev [Em _]].
  unfold XXH_rotl32, rotate_left, bind, emit, shl32, shr32, ret, sub32 in *.
  rewrite (Z.mod_small (32 - a)) in * by (rewrite U32_eq; lia).
  destruct (Z.ltb_spec a 32); [| lia].
  destruct (Z.ltb_spec (32 - a) 32); [| lia].
  exists [EvRotl a]. cbn. repeat split; auto.
Qed.

Lemma sat_while {S} E F (I : S -> Prop) (mu : S -> nat)
      (cond : S -> bool) (body : S -> M S) :
  (forall s, I s -> cond s = true ->
             (0 < mu s)%nat /\
             sat E F (fun s' => I s' /\ (mu s' < mu s)%nat) (body s)) ->
  forall fuel s, I s -> (mu s <= fuel)%nat ->
                 sat E F (fun s' => I s' /\ cond s' = false)
                     (while fuel cond body s).
Proof.
  intros Hbody. induction fuel as [| fuel IH]; intros s HI Hmu;
    destruct (cond s) eqn:Hc.
  - destruct (Hbody s HI Hc) as [Hpos _]. lia.
  - rewrite while_done by assumption. apply sat_ret. auto.
  - rewrite while_step by assumption.
    destruct (Hbody s HI Hc) as [_ Hsat].
    eapply sat_bind; [exact Hsat |].
    intros s' [HI' Hlt]. apply IH; [assumption | lia].
  - rewrite while_done by assumption. apply sat_ret. auto.
Qed.

(* ================================================================== *)
(** ** What every run of the program logs, and how it can fail *)

Lemma rotl_amounts_range (a : Z) : In a rotl_amounts -> 1 <= a <= 31.
Proof. unfold rotl_amounts. cbn [In]. lia. Qed.

Section Safety.

Variable p : list byte.
Variable len : Z.
Hypothesis Hlen : 0 <= len < SIZE.

Ltac rotl_ok := unfold event_ok, rotl_amounts; cbn [In]; lia.

Lemma sat_load_below (i : Z) :
  0 <= i < len -> sat (event_ok len) (fault_ok p len)
      (fun _ => True) (load p i).
Proof.
  intros Hi. apply sat_load; cbn; auto; lia.
Qed.

Lemma sat_read32 (off : Z) :
  0 <= off -> off + 3 < len -> sat (event_ok len) (fault_ok p len)
      (fun _ => True) (XXH_read32 p off).
Proof.
  intros Ho Hl. unfold XXH_read32. size_simpl.
  eapply sat_bind; [apply sat_load_below; lia | intros b0 _].
  eapply sat_bind; [apply sat_load_below; lia | intros b1 _].
  eapply sat_bind; [apply sat_shl32 with (Q := fun _ => True); auto; lia |
                     intros s1 _].
  eapply sat_bind; [apply sat_load_below; lia | intros b2 _].
  eapply sat_bind; [apply sat_shl32 with (Q := fun _ => True); auto; lia |
                     intros s2 _].
  eapply sat_bind; [apply sat_load_below; lia | intros b3 _].
  eapply sat_bind; [apply sat_shl32 with (Q := fun _ => True); auto; lia |
                     intros s3 _].
  apply sat_ret. exact I.
Qed.

Lemma sat_round (lane input : Z) :
  sat (event_ok len) (fault_ok p len) (fun _ => True) (XXH32_round lane input).
Proof.
  unfold XXH32_round.
  eapply sat_bind;
    [apply sat_rotl with (Q := fun _ => True); [lia | rotl_ok | exact I] |
     intros r _].
  apply sat_ret. exact I.
Qed.

Lemma sat_avalanche (h : Z) :
  sat (event_ok len) (fault_ok p len)
      (fun v => v = avalanche h) (XXH32_avalanche h).
Proof.
  unfold XXH32_avalanche, avalanche.
  eapply sat_bind;
    [apply sat_shr32 with (Q := fun v => v = Z.shiftr h 15);
     [lia | reflexivity] | intros s1 ->].
  eapply sat_bind;
    [eapply sat_shr32 with (Q := fun v => v = _); [lia | reflexivity] |
     intros s2 ->].
  eapply sat_bind;
    [eapply sat_shr32 with (Q := fun v => v = _); [lia | reflexivity] |
     intros s3 ->].
  apply sat_ret. reflexivity.
Qed.

(** Each loop body keeps [offset + remaining == length] and takes its
    bytes off [remaining]. *)
Lemma sat_bulk_body (s : bulk_state) :
  bulk_inv len s -> bulk_cond s = true ->
  sat (event_ok len) (fault_ok p len) (fun s' => bulk_inv len s'
                     /\ b_remaining s' = b_remaining s - 16)
      (bulk_body p s).
Proof.
  unfold bulk_inv, in_bounds, bulk_cond. intros [Ho [Hr Hsum]] Hc.
  apply Z.leb_le in Hc. unfold bulk_body. size_simpl.
  eapply sat_bind; [apply sat_read32; lia | intros w1 _].
  eapply sat_bind; [apply sat_round | intros l1 _].
  eapply sat_bind; [apply sat_read32; lia | intros w2 _].
  eapply sat_bind; [apply sat_round | intros l2 _].
  eapply sat_bind; [apply sat_read32; lia | intros w3 _].
  eapply sat_bind; [apply sat_round | intros l3 _].
  eapply sat_bind; [apply sat_read32; lia | intros w4 _].
  eapply sat_bind; [apply sat_round | intros l4 _].
  apply sat_ret. cbn [b_offset b_remaining]. lia.
Qed.

Lemma sat_word_body (s : tail_state) :
  tail_inv len s -> word_cond s = true ->
  sat (event_ok len) (fault_ok p len)
      (fun s' => tail_inv len s' /\ remaining s' = remaining s - 4)
      (word_body p s).
Proof.
  unfold tail_inv, in_bounds, word_cond. intros [Ho [Hr Hsum]] Hc.
  apply Z.leb_le in Hc. unfold word_body. size_simpl.
  eapply sat_bind; [apply sat_read32; lia | intros w _].
  eapply sat_bind;
    [apply sat_rotl with (Q := fun _ => True); [lia | rotl_ok | exact I] |
     intros r _].
  apply sat_ret. cbn [offset remaining]. lia.
Qed.

Lemma sat_byte_body (s : tail_state) :
  tail_inv len s -> byte_cond s = true ->
  sat (event_ok len) (fault_ok p len)
      (fun s' => tail_inv len s' /\ remaining s' = remaining s - 1)
      (byte_body p s).
Proof.
  unfold tail_inv, in_bounds, byte_cond. intros [Ho [Hr Hsum]] Hc.
  apply negb_true_iff, Z.eqb_neq in Hc. unfold byte_body. size_simpl.
  eapply sat_bind; [apply sat_load_below; lia | intros b _].
  eapply sat_bind;
    [apply sat_rotl with (Q := fun _ => True); [lia | rotl_ok | exact I] |
     intros r _].
  apply sat_ret. cbn [offset remaining]. lia.
Qed.

(** The loops: the invariant at the exit, the guard false, no fuel
    missing. *)
Lemma sat_bulk_loop (fuel : nat) (s : bulk_state) :
  bulk_inv len s -> (Z.to_nat (b_remaining s) <= fuel)%nat ->
  sat (event_ok len) (fault_ok p len)
      (fun s' => bulk_inv len s' /\ bulk_cond s' = false)
      (while fuel bulk_cond (bulk_body p) s).
Proof.
  apply (sat_while (event_ok len) (fault_ok p len) (bulk_inv len)
                   (fun s => Z.to_nat (b_remaining s))).
  intros s0 Hinv Hc. split.
  - unfold bulk_cond in Hc. apply Z.leb_le in Hc. lia.
  - eapply sat_weaken; [apply sat_bulk_body; assumption |].
    unfold bulk_cond in Hc. apply Z.leb_le in Hc.
    intros s' [Hinv' Hrem]. split; [assumption | lia].
Qed.

Lemma sat_word_loop (fuel : nat) (s : tail_state) :
  tail_inv len s -> (Z.to_nat (remaining s) <= fuel)%nat ->
  sat (event_ok len) (fault_ok p len)
      (fun s' => tail_inv len s' /\ word_cond s' = false)
      (while fuel word_cond (word_body p) s).
Proof.
  apply (sat_while (event_ok len) (fault_ok p len)
      (tail_inv len) (fun s => Z.to_nat (remaining s))).
  intros s0 Hinv Hc. split.
  - unfold word_cond in Hc. apply Z.leb_le in Hc. lia.
  - eapply sat_weaken; [apply sat_word_body; assumption |].
    unfold word_cond in Hc. apply Z.leb_le in Hc.
    intros s' [Hinv' Hrem]. split; [assumption | lia].
Qed.

Lemma sat_byte_loop (fuel : nat) (s : tail_state) :
  tail_inv len s -> (Z.to_nat (remaining s) <= fuel)%nat ->
  sat (event_ok len) (fault_ok p len)
      (fun s' => tail_inv len s' /\ byte_cond s' = false)
      (while fuel byte_cond (byte_body p) s).
Proof.
  apply (sat_while (event_ok len) (fault_ok p len)
      (tail_inv len) (fun s => Z.to_nat (remaining s))).
  intros s0 Hinv Hc. pose proof Hinv as [Ho [Hr Hsum]].
  unfold byte_cond in Hc. apply negb_true_iff, Z.eqb_neq in Hc. split.
  - lia.
  - eapply sat_weaken.
    + apply sat_byte_body; [assumption |].
      unfold byte_cond. apply negb_true_iff, Z.eqb_neq. assumption.
    + intros s' [Hinv' Hrem]. split; [assumption | lia].
Qed.

Lemma sat_bulk (seed : Z) :
  sat (event_ok len) (fault_ok p len) (tail_inv len) (XXH32_bulk p len seed).
Proof.
  unfold XXH32_bulk. destruct (Z.leb_spec 16 len) as [Hge | Hlt].
  - eapply sat_bind.
    + apply sat_bulk_loop; unfold bulk_inv, in_bounds, fuel_for;
        cbn [b_offset b_remaining]; lia.
    + intros s [Hinv _].
      eapply sat_bind;
        [apply sat_rotl with (Q := fun _ => True);
         [lia | rotl_ok | exact I] | intros r1 _].
      eapply sat_bind;
        [apply sat_rotl with (Q := fun _ => True);
         [lia | rotl_ok | exact I] | intros r2 _].
      eapply sat_bind;
        [apply sat_rotl with (Q := fun _ => True);
         [lia | rotl_ok | exact I] | intros r3 _].
      eapply sat_bind;
        [apply sat_rotl with (Q := fun _ => True);
         [lia | rotl_ok | exact I] | intros r4 _].
      apply sat_ret. exact Hinv.
  - apply sat_ret. unfold tail_inv, in_bounds. cbn [offset remaining]. lia.
Qed.

Lemma sat_tail (s : tail_state) :
  tail_inv len s ->
  sat (event_ok len) (fault_ok p len)
      (fun s' => tail_inv len s' /\ remaining s' = 0)
      (XXH32_tail p len s).
Proof.
  intros Hinv. unfold XXH32_tail, fuel_for.
  eapply sat_bind.
  - apply sat_word_loop; [exact Hinv | cbn [remaining]; lia].
  - intros s1 [Hinv1 _].
    eapply sat_weaken; [apply sat_byte_loop; [exact Hinv1 | lia] |].
    intros s2 [Hinv2 Hc]. split; [exact Hinv2 |].
    unfold byte_cond in Hc. apply negb_false_iff, Z.eqb_eq in Hc.
    exact Hc.
Qed.

Lemma sat_XXH32 (seed : Z) :
  sat (event_ok len) (fault_ok p len)
      (fun v => exists h, v = avalanche h) (XXH32 (Some p) len seed).
Proof.
  unfold XXH32.
  eapply sat_bind; [apply sat_bulk | intros s Hinv].
  eapply sat_bind; [apply sat_tail; exact Hinv | intros s' _].
  eapply sat_weaken; [apply sat_avalanche |].
  intros v ->. eauto.
Qed.

End Safety.

(* ================================================================== *)
(** ** Two buffers that hold the same first [len] bytes *)

Lemma bind_agree {A B} E F (Q : A -> Prop) (m1 m2 : M A) (f1 f2 : A -> M B) :
  (forall tr, m1 tr = m2 tr) -> sat E F Q m1 ->
  (forall a, Q a -> forall tr, f1 a tr = f2 a tr) ->
  forall tr, bind m1 f1 tr = bind m2 f2 tr.
Proof.
  intros Hm Hsat Hf tr. unfold bind. rewrite <- Hm.
  destruct (Hsat tr) as [ev [_ [_ HQ]]].
  destruct (m1 tr) as [[a | e] tr']; [| reflexivity].
  apply Hf. exact HQ.
Qed.

Lemma while_agree {S} E F (I : S -> Prop) (cond : S -> bool)
      (body1 body2 : S -> M S) :
  (forall s, I s -> cond s = true ->
             body1 s = body2 s /\ sat E F I (body1 s)) ->
  forall fuel s, I s ->
                 forall tr, while fuel cond body1 s tr
                            = while fuel cond body2 s tr.
Proof.
  intros Hbody. induction fuel as [| fuel IH]; intros s HI tr;
    cbn [while]; destruct (cond s) eqn:Hc; try reflexivity.
  destruct (Hbody s HI Hc) as [Heq Hsat].
  apply (bind_agree E F I); [rewrite Heq; reflexivity | exact Hsat |].
  intros s' HI'. apply IH. exact HI'.
Qed.

Section Agree.

Variables p q : list byte.
Variable len : Z.
Hypothesis Hlen : 0 <= len < SIZE.
Hypothesis Hpq : agree len p q.

Lemma load_agree (i : Z) : 0 <= i < len -> load p i = load q i.
Proof. intros Hi. unfold load. rewrite (Hpq i Hi). reflexivity. Qed.

Lemma read32_agree (off : Z) :
  0 <= off -> off + 3 < len -> XXH_read32 p off = XXH_read32 q off.
Proof.
  intros Ho Hl. unfold XXH_read32. size_simpl.
  rewrite !load_agree by lia. reflexivity.
Qed.

Lemma bulk_body_agree (s : bulk_state) :
  bulk_inv len s -> bulk_cond s = true -> bulk_body p s = bulk_body q s.
Proof.
  unfold bulk_inv, in_bounds, bulk_cond. intros [Ho [Hr Hsum]] Hc.
  apply Z.leb_le in Hc. unfold bulk_body. size_simpl.
  rewrite !read32_agree by lia. reflexivity.
Qed.

Lemma word_body_agree (s : tail_state) :
  tail_inv len s -> word_cond s = true -> word_body p s = word_body q s.
Proof.
  unfold tail_inv, in_bounds, word_cond. intros [Ho [Hr Hsum]] Hc.
  apply Z.leb_le in Hc. unfold word_body.
  rewrite read32_agree by lia. reflexivity.
Qed.

Lemma byte_body_agree (s : tail_state) :
  tail_inv len s -> byte_cond s = true -> byte_body p s = byte_body q s.
Proof.
  unfold tail_inv, in_bounds, byte_cond. intros [Ho [Hr Hsum]] Hc.
  apply negb_true_iff, Z.eqb_neq in Hc. unfold byte_body.
  rewrite load_agree by lia. reflexivity.
Qed.

Lemma bulk_agree (seed : Z) (tr : list event) :
  XXH32_bulk p len seed tr = XXH32_bulk q len seed tr.
Proof.
  unfold XXH32_bulk. destruct (Z.leb_spec 16 len) as [Hge | Hlt];
    [| reflexivity].
  revert tr.
  apply (bind_agree (event_ok len) (fault_ok p len) (fun _ => True)).
  - apply (while_agree (event_ok len) (fault_ok p len) (bulk_inv len)).
    + intros s Hinv Hc. split; [apply bulk_body_agree; assumption |].
      eapply sat_weaken; [apply sat_bulk_body; assumption |].
      intros s' [H _]. exact H.
    + unfold bulk_inv, in_bounds. cbn [b_offset b_remaining]. lia.
  - eapply sat_weaken;
      [apply sat_bulk_loop with (len := len);
       unfold bulk_inv, in_bounds, fuel_for;
       cbn [b_offset b_remaining]; lia |].
    auto.
  - reflexivity.
Qed.

Lemma tail_agree (s : tail_state) (tr : list event) :
  tail_inv len s -> XXH32_tail p len s tr = XXH32_tail q len s tr.
Proof.
  intros Hinv. unfold XXH32_tail. revert tr.
  apply (bind_agree (event_ok len) (fault_ok p len) (tail_inv len)).
  - apply (while_agree (event_ok len) (fault_ok p len) (tail_inv len)).
    + intros s0 Hinv0 Hc. split; [apply word_body_agree; assumption |].
      eapply sat_weaken; [apply sat_word_body; assumption |].
      intros s' [H _]. exact H.
    + exact Hinv.
  - eapply sat_weaken;
      [apply sat_word_loop with (len := len);
       [assumption | exact Hinv | unfold fuel_for; cbn [remaining]; lia] |].
    intros s' [H _]. exact H.
  - intros s1 Hinv1.
    apply (while_agree (event_ok len) (fault_ok p len) (tail_inv len)).
    + intros s0 Hinv0 Hc. split; [apply byte_body_agree; assumption |].
      eapply sat_weaken; [apply sat_byte_body; assumption |].
      intros s' [H _]. exact H.
    + exact Hinv1.
Qed.

Lemma XXH32_agree (seed : Z) (tr : list event) :
  XXH32 (Some p) len seed tr = XXH32 (Some q) len seed tr.
Proof.
  unfold XXH32. revert tr.
  apply (bind_agree (event_ok len) (fault_ok p len) (tail_inv len)).
  - apply bulk_agree.
  - apply sat_bulk. exact Hlen.
  - intros s Hinv.
    apply (bind_agree (event_ok len) (fault_ok p len) (fun _ => True)).
    + intros tr. apply tail_agree. exact Hinv.
    + eapply sat_weaken; [apply sat_tail; [exact Hlen | exact Hinv] |].
      auto.
    + reflexivity.
Qed.

End Agree.

(* ================================================================== *)
(** ** Rotation *)

Lemma rotate_left_arith (v a : Z) :
  0 <= v < U32 -> 1 <= a <= 31 ->
  rotate_left v a = v mod 2 ^ (32 - a) * 2 ^ a + v / 2 ^ (32 - a).
Proof.
  intros Hv Ha. unfold rotate_left.
  rewrite Z.shiftl_mul_pow2, Z.shiftr_div_pow2 by lia.
  assert (Hpow : U32 = 2 ^ (32 - a) * 2 ^ a).
  { rewrite <- Z.pow_add_r by lia. unfold U32. f_equal. lia. }
  assert (Hpa : 0 < 2 ^ a) by (apply Z.pow_pos_nonneg; lia).
  assert (Hpb : 0 < 2 ^ (32 - a)) by (apply Z.pow_pos_nonneg; lia).
  rewrite Hpow, Z.mul_mod_distr_r by lia.
  rewrite Z.lor_comm, <- Z.shiftl_mul_pow2 by lia.
  rewrite lor_shiftl_add; [rewrite Z.shiftl_mul_pow2 by lia; lia | lia |].
  split; [apply Z.div_pos; lia |].
  apply Z.div_lt_upper_bound; lia.
Qed.

Lemma rotate_left_range (v a : Z) :
  0 <= v < U32 -> 1 <= a <= 31 -> 0 <= rotate_left v a < U32.
Proof.
  intros Hv Ha. rewrite rotate_left_arith by assumption.
  assert (Hpow : U32 = 2 ^ (32 - a) * 2 ^ a).
  { rewrite <- Z.pow_add_r by lia. unfold U32. f_equal. lia. }
  assert (Hpa : 0 < 2 ^ a) by (apply Z.pow_pos_nonneg; lia).
  assert (Hpb : 0 < 2 ^ (32 - a)) by (apply Z.pow_pos_nonneg; lia).
  pose proof (Z.mod_pos_bound v (2 ^ (32 - a)) Hpb) as Hm.
  assert (Hd : 0 <= v / 2 ^ (32 - a) < 2 ^ a).
  { split; [apply Z.div_pos; lia | apply Z.div_lt_upper_bound; lia]. }
  nia.
Qed.

Lemma rotate_left_bits (v a i : Z) :
  0 <= v < U32 -> 1 <= a <= 31 -> 0 <= i < 32 ->
  Z.testbit (rotate_left v a) i = Z.testbit v ((i - a) mod 32).
Proof.
  intros Hv Ha Hi. unfold rotate_left, U32.
  rewrite Z.lor_spec, Z.mod_pow2_bits_low, Z.shiftl_spec, Z.shiftr_spec
    by lia.
  destruct (Z.lt_ge_cases i a) as [Hlt | Hge].
  - rewrite (Z.testbit_neg_r v (i - a)) by lia.
    replace ((i - a) mod 32) with (i + (32 - a)); [reflexivity |].
    apply (Z.mod_unique _ _ (-1)); lia.
  - rewrite <- (Z.mod_small v (2 ^ 32)) at 2 by exact Hv.
    rewrite Z.mod_pow2_bits_high, orb_false_r by lia.
    rewrite (Z.mod_small (i - a)) by lia. reflexivity.
Qed.

(* ================================================================== *)
(** ** Logs *)

Lemma event_ok_loads (len : Z) (ev : list event) :
  Forall (event_ok len) ev -> Forall (fun i => 0 <= i < len) (loads_of ev).
Proof.
  intros H. unfold loads_of. apply Forall_flat_map.
  eapply Forall_impl; [| exact H].
  intros [i | a] Hok; cbn in *; auto.
Qed.

Lemma event_ok_rotls (len : Z) (ev : list event) :
  Forall (event_ok len) ev ->
  Forall (fun a => In a rotl_amounts) (rotls_of ev).
Proof.
  intros H. unfold rotls_of. apply Forall_flat_map.
  eapply Forall_impl; [| exact H].
  intros [i | a] Hok; cbn [event_ok] in *; auto.
Qed.

Lemma bind_ok {A B} (m : M A) (f : A -> M B) tr b tr' :
  bind m f tr = (Ok b, tr') ->
  exists a tr1, m tr = (Ok a, tr1) /\ f a tr1 = (Ok b, tr').
Proof.
  unfold bind. destruct (m tr) as [[a | e] tr1]; [eauto | discriminate].
Qed.

(* ================================================================== *)
(** ** The faults are reachable when the caller breaks the contract *)

(** A [length] above the capacity of the buffer ends in a read outside
    it, once every byte of the buffer has been read. *)
Lemma length_above_capacity :
  XXH32 (Some test_data) 102 0 []
  = (Fault (OutOfBounds 101),
     snd (XXH32 (Some test_data) 101 0 [])).
Proof. vm_compute. reflexivity. Qed.

(** [XXH_rotl32] by 0 shifts right by 32, and by 32 shifts left by 32. *)
Lemma rotl_by_0_or_32 (value : Z) (tr : list event) :
  fst (XXH_rotl32 value 0 tr) = Fault (ShiftCount 32) /\
  fst (XXH_rotl32 value 32 tr) = Fault (ShiftCount 32).
Proof. split; reflexivity. Qed.

(* ================================================================== *)
(** ** The properties of the specification *)

(** C1. On the 101-byte buffer that [main] fills from [PRIME32_1] (the high
    byte of [byte_gen], then [byte_gen *= byte_gen]), [XXH32] returns the
    eight golden values of the self test, so [main] ends with status 0. *)
Theorem golden_vectors :
  length test_data = 101%nat /\
  value_of (XXH32 None 0 0) = Ok 0x02CC5D05 /\
  value_of (XXH32 None 0 0x9E3779B1) = Ok 0x36B78AE7 /\
  value_of (XXH32 (Some test_data) 1 0) = Ok 0xB85CBEE5 /\
  value_of (XXH32 (Some test_data) 1 0x9E3779B1) = Ok 0xD5845D64 /\
  value_of (XXH32 (Some test_data) 14 0) = Ok 0xE5AA0AB4 /\
  value_of (XXH32 (Some test_data) 14 0x9E3779B1) = Ok 0x4481951D /\
  value_of (XXH32 (Some test_data) 101 0) = Ok 0x1F1AA412 /\
  value_of (XXH32 (Some test_data) 101 0x9E3779B1) = Ok 0x498EC8E2 /\
  main = 0.
Proof.
  repeat split; vm_compute; reflexivity.
Qed.

(** C2. With a null [input], [XXH32] returns
    [avalanche ((seed + PRIME32_5) mod 2^32)] for every [length] and every
    [seed]: a value, not a fault, and nothing is read. *)
Theorem null_input (len seed : Z) (tr : list event) :
  XXH32 None len seed tr = (Ok (avalanche ((seed + PRIME32_5) mod U32)), tr).
Proof.
  reflexivity.
Qed.

(** C6. [XXH32_avalanche] returns, for every [h], the result of
    [h ^= h >> 15; h *= PRIME32_2; h ^= h >> 13; h *= PRIME32_3;
     h ^= h >> 16], the products modulo 2^32, without a fault and without
    an event.  It is the last step of every hash computation: with a null
    input [XXH32] is this sequence on [seed + PRIME32_5]; with a present
    input [XXH32] is the bulk phase followed by the tail, and then, when
    these end in a state [s], this sequence on the accumulator [hash s]
    with nothing more logged (when they fault, [XXH32] ends in that
    fault); and for a buffer of at least [length] bytes they do end in a
    state, whose accumulator is the one the tail leaves. *)
Theorem avalanche_sequence :
  (forall (h : Z) (tr : list event),
      XXH32_avalanche h tr
      = (Ok (let h1 := Z.lxor h (Z.shiftr h 15) in
             let h2 := (h1 * PRIME32_2) mod 2 ^ 32 in
             let h3 := Z.lxor h2 (Z.shiftr h2 13) in
             let h4 := (h3 * PRIME32_3) mod 2 ^ 32 in
             Z.lxor h4 (Z.shiftr h4 16)), tr)) /\
  (forall (len seed : Z) (tr : list event),
      XXH32 None len seed tr
      = XXH32_avalanche ((seed + PRIME32_5) mod 2 ^ 32) tr) /\
  (forall (p : list byte) (len seed : Z) (tr : list event),
      XXH32 (Some p) len seed tr
      = match (s0 <- XXH32_bulk p len seed ;; XXH32_tail p len s0) tr with
        | (Ok s, tr1) =>
            (Ok (let h := hash s in
                 let h1 := Z.lxor h (Z.shiftr h 15) in
                 let h2 := (h1 * PRIME32_2) mod 2 ^ 32 in
                 let h3 := Z.lxor h2 (Z.shiftr h2 13) in
                 let h4 := (h3 * PRIME32_3) mod 2 ^ 32 in
                 Z.lxor h4 (Z.shiftr h4 16)), tr1)
        | (Fault f, tr1) => (Fault f, tr1)
        end) /\
  (forall (p : list byte) (len seed : Z),
      0 <= len <= Z.of_nat (length p) -> len < SIZE ->
      exists s : tail_state,
        yields (s0 <- XXH32_bulk p len seed ;; XXH32_tail p len s0) s
               (map Z.of_nat (seq 0 (Z.to_nat len))) /\
        hash s = tail_hash p ((bulk_hash p len seed + len) mod 2 ^ 32)
                           (16 * (len / 16)) (len mod 16) /\
        yields (XXH32 (Some p) len seed) (avalanche (hash s))
               (map Z.of_nat (seq 0 (Z.to_nat len)))).
Proof.
  split; [| split; [| split]].
  - intros h tr. reflexivity.
  - intros len seed tr. reflexivity.
  - intros p len seed tr. unfold XXH32, bind.
    destruct (XXH32_bulk p len seed tr) as [[s | f] tr1]; [| reflexivity].
    destruct (XXH32_tail p len s tr1) as [[s2 | f] tr2]; reflexivity.
  - intros p len seed Hp Hs.
    pose proof (Z.div_mod len 16 ltac:(lia)) as Hdm.
    pose proof (Z.mod_pos_bound len 16 ltac:(lia)) as Hm.
    assert (Hq : 0 <= len / 16) by (apply Z.div_pos; lia).
    assert (Hloads : steps 0 1 (16 * Z.to_nat (len / 16))
                     ++ steps (16 * (len / 16)) 1 (Z.to_nat (len mod 16))
                     = map Z.of_nat (seq 0 (Z.to_nat len))).
    { rewrite <- steps_seq.
      replace (Z.to_nat len)
        with (16 * Z.to_nat (len / 16) + Z.to_nat (len mod 16))%nat by lia.
      rewrite steps_app. do 2 f_equal. lia. }
    eexists. split; [| split].
    + eapply yields_eq.
      * eapply yields_bind; [apply yields_bulk; lia |].
        apply yields_tail; cbn [hash offset remaining]; lia.
      * reflexivity.
      * cbn [hash offset remaining]. exact Hloads.
    + reflexivity.
    + cbn [hash]. rewrite <- steps_seq.
      apply (yields_XXH32 p len seed Hp Hs).
Qed.

Lemma avalanche_sequence_witness :
  exists s : tail_state,
    yields (s0 <- XXH32_bulk test_data 101 0 ;; XXH32_tail test_data 101 s0)
           s (map Z.of_nat (seq 0 (Z.to_nat 101))) /\
    hash s = tail_hash test_data ((bulk_hash test_data 101 0 + 101) mod 2 ^ 32)
                       (16 * (101 / 16)) (101 mod 16) /\
    yields (XXH32 (Some test_data) 101 0) (avalanche (hash s))
           (map Z.of_nat (seq 0 (Z.to_nat 101))).
Proof.
  apply (proj2 (proj2 (proj2 avalanche_sequence)) test_data 101 0).
  - split; [lia | apply Z.leb_le; vm_compute; reflexivity].
  - unfold SIZE. lia.
Defined.

(** C7. When the four bytes at [offset .. offset + 3] are inside the buffer,
    [XXH_read32] returns
    [p[offset] + p[offset+1] * 2^8 + p[offset+2] * 2^16 + p[offset+3] * 2^24]
    and reads exactly these four bytes. *)
Theorem read32_little_endian (p : list byte) (off : Z) :
  0 <= off -> off + 3 < Z.of_nat (length p) ->
  Z.of_nat (length p) <= SIZE ->
  yields (XXH_read32 p off)
         (byte_at p off + byte_at p (off + 1) * 2 ^ 8
          + byte_at p (off + 2) * 2 ^ 16 + byte_at p (off + 3) * 2 ^ 24)
         [off; off + 1; off + 2; off + 3].
Proof.
  intros Ho Hp Hs. apply yields_read32; lia.
Qed.

Lemma read32_little_endian_witness :
  yields (XXH_read32 test_data 97)
         (byte_at test_data 97 + byte_at test_data (97 + 1) * 2 ^ 8
          + byte_at test_data (97 + 2) * 2 ^ 16
          + byte_at test_data (97 + 3) * 2 ^ 24)
         [97; 97 + 1; 97 + 2; 97 + 3].
Proof.
  apply (read32_little_endian test_data 97).
  - lia.
  - vm_compute. reflexivity.
  - apply Z.leb_le. vm_compute. reflexivity.
Defined.

(** C3. For a present buffer that holds at least [length] bytes: from any
    state with [offset + remaining == length], the tail first adds
    [length] (mod 2^32) to the accumulator, then folds
    [h := rotate_left (h + word * PRIME32_3, 17) * PRIME32_4] over the
    little-endian words at [offset, offset + 4, ...] while four bytes
    remain, then folds [h := rotate_left (h + byte * PRIME32_5, 11) *
    PRIME32_1] over the bytes left, and ends with [remaining == 0]; and the
    bulk phase and the two tail loops together read the bytes at
    [0, 1, ..., length - 1], each once and in this order. *)
Theorem tail_drains_input (p : list byte) (len seed : Z) :
  0 <= len <= Z.of_nat (length p) -> len < SIZE ->
  (forall s : tail_state,
      tail_inv len s ->
      yields (XXH32_tail p len s)
             {| hash :=
                  fold_left (byte_step p)
                    (steps (offset s + 4 * (remaining s / 4)) 1
                           (Z.to_nat (remaining s mod 4)))
                    (fold_left (word_step p)
                       (steps (offset s) 4 (Z.to_nat (remaining s / 4)))
                       ((hash s + len) mod 2 ^ 32));
                offset := len;
                remaining := 0 |}
             (steps (offset s) 1 (Z.to_nat (remaining s)))) /\
  yields (XXH32 (Some p) len seed) (XXH32_value p len seed)
         (map Z.of_nat (seq 0 (Z.to_nat len))).
Proof.
  intros Hp Hs. split.
  - intros s [Ho [Hr Hsum]].
    eapply yields_eq; [apply (yields_tail p len s); lia | | reflexivity].
    unfold tail_hash. f_equal. exact Hsum.
  - rewrite <- steps_seq. apply yields_XXH32; assumption.
Qed.

Lemma tail_drains_input_witness :
  yields (XXH32 (Some test_data) 101 0) (XXH32_value test_data 101 0)
         (map Z.of_nat (seq 0 (Z.to_nat 101))).
Proof.
  apply (tail_drains_input test_data 101 0).
  - split; [lia | apply Z.leb_le; vm_compute; reflexivity].
  - unfold SIZE. lia.
Defined.

(** C4. For a present buffer of at least [length >= 16] bytes: the lanes
    start at [seed + P1 + P2], [seed + P2], [seed + 0], [seed - P1]
    (mod 2^32); [XXH32_round lane word] is
    [rotate_left (lane + word * P2, 13) * P1] (mod 2^32); one iteration of
    the bulk loop reads the four little-endian words at [offset],
    [offset + 4], [offset + 8], [offset + 12], updates lanes 1 to 4 with
    them and takes 16 bytes; and the phase runs [length / 16] iterations,
    leaves fewer than 16 bytes and sets the accumulator to
    [rotate_left (lane1, 1) + rotate_left (lane2, 7) +
     rotate_left (lane3, 12) + rotate_left (lane4, 18)] (mod 2^32). *)
Theorem bulk_pipeline (p : list byte) (len seed : Z) :
  16 <= len <= Z.of_nat (length p) -> len < SIZE ->
  (forall lane word : Z,
      yields (XXH32_round lane word)
             ((rotate_left ((lane + word * PRIME32_2) mod 2 ^ 32) 13
               * PRIME32_1) mod 2 ^ 32) []) /\
  (forall s : bulk_state,
      bulk_inv len s -> 16 <= b_remaining s ->
      yields (bulk_body p s)
             {| lane1 := round (lane1 s) (read_u32_le p (b_offset s));
                lane2 := round (lane2 s) (read_u32_le p (b_offset s + 4));
                lane3 := round (lane3 s) (read_u32_le p (b_offset s + 8));
                lane4 := round (lane4 s) (read_u32_le p (b_offset s + 12));
                b_offset := b_offset s + 16;
                b_remaining := b_remaining s - 16 |}
             (steps (b_offset s) 1 16)) /\
  yields (XXH32_bulk p len seed)
         {| hash :=
              combine
                (fold_left (block_step p)
                           (steps 0 16 (Z.to_nat (len / 16)))
                           ((seed + PRIME32_1 + PRIME32_2) mod 2 ^ 32,
                            (seed + PRIME32_2) mod 2 ^ 32,
                            (seed + 0) mod 2 ^ 32,
                            (seed - PRIME32_1) mod 2 ^ 32));
            offset := 16 * (len / 16);
            remaining := len mod 16 |}
         (steps 0 1 (16 * Z.to_nat (len / 16))) /\
  0 <= len mod 16 < 16.
Proof.
  intros Hp Hs. repeat split.
  - intros lane word. apply yields_round.
  - intros s [Ho [Hr Hsum]] Hc.
    eapply yields_eq; [apply yields_bulk_body; lia | | reflexivity].
    destruct s; reflexivity.
  - eapply yields_eq; [apply yields_bulk; lia | | reflexivity].
    unfold bulk_hash. destruct (Z.leb_spec 16 len); [reflexivity | lia].
  - apply Z.mod_pos_bound. lia.
  - apply Z.mod_pos_bound. lia.
Qed.

Lemma bulk_pipeline_witness :
  yields (XXH32_bulk test_data 101 0)
         {| hash :=
              combine
                (fold_left (block_step test_data)
                           (steps 0 16 (Z.to_nat (101 / 16)))
                           ((0 + PRIME32_1 + PRIME32_2) mod 2 ^ 32,
                            (0 + PRIME32_2) mod 2 ^ 32,
                            (0 + 0) mod 2 ^ 32,
                            (0 - PRIME32_1) mod 2 ^ 32));
            offset := 16 * (101 / 16);
            remaining := 101 mod 16 |}
         (steps 0 1 (16 * Z.to_nat (101 / 16))).
Proof.
  apply (bulk_pipeline test_data 101 0).
  - split; [lia | apply Z.leb_le; vm_compute; reflexivity].
  - unfold SIZE. lia.
Defined.



(** C8. Two calls with the same [seed] and [length], on inputs that are
    both null or that hold the same bytes at the indices below [length],
    run identically: the same result (value or fault) and the same log.
    Nothing is said of the indices from [length] on: those bytes, and
    whether they exist, have no influence. *)
Theorem deterministic (i1 i2 : option (list byte)) (len seed : Z)
        (tr : list event) :
  0 <= len < SIZE -> same_input len i1 i2 ->
  XXH32 i1 len seed tr = XXH32 i2 len seed tr.
Proof.
  intros Hlen Hsame. destruct i1 as [p |], i2 as [q |]; cbn in Hsame;
    try contradiction.
  - apply XXH32_agree; assumption.
  - reflexivity.
Qed.

Lemma deterministic_witness :
  XXH32 (Some test_data) 2 5 []
  = XXH32 (Some (firstn 2 test_data ++ [x00; x01])) 2 5 [].
Proof.
  apply (deterministic (Some test_data)
                       (Some (firstn 2 test_data ++ [x00; x01])) 2 5 []).
  - unfold SIZE. lia.
  - intros i Hi.
    assert (Hcases : i = 0 \/ i = 1) by lia.
    destruct Hcases as [-> | ->]; reflexivity.
Defined.

(** C9. When the buffer holds at least [length] bytes, [XXH32] returns a
    value and every byte it reads is at an index in [0, length); and
    [offset + remaining == length] holds on entry to each of the three
    loops and after each of their iterations, none of which faults or
    reads outside [0, length). *)
Theorem reads_in_bounds (p : list byte) (len seed : Z) :
  0 <= len <= Z.of_nat (length p) -> len < SIZE ->
  (forall tr, exists v ev,
        XXH32 (Some p) len seed tr = (Ok v, tr ++ ev) /\
        Forall (fun i => 0 <= i < len) (loads_of ev)) /\
  (* the bulk loop *)
  (forall l1 l2 l3 l4, bulk_inv len (mk_bulk l1 l2 l3 l4 0 len)) /\
  (forall s, bulk_inv len s -> bulk_cond s = true ->
             sat (event_ok len) no_fault (bulk_inv len) (bulk_body p s)) /\
  (* the word loop *)
  sat (event_ok len) no_fault (tail_inv len) (XXH32_bulk p len seed) /\
  (forall s, tail_inv len s -> word_cond s = true ->
             sat (event_ok len) no_fault (tail_inv len) (word_body p s)) /\
  (* the byte loop *)
  (forall s, tail_inv len s ->
             sat (event_ok len) no_fault (tail_inv len)
                 (while (fuel_for (remaining s)) word_cond (word_body p) s)) /\
  (forall s, tail_inv len s -> byte_cond s = true ->
             sat (event_ok len) no_fault (tail_inv len) (byte_body p s)).
Proof.
  intros Hp Hs.
  assert (Hlen : 0 <= len < SIZE) by lia.
  assert (HF : forall f, fault_ok p len f -> no_fault f).
  { intros f. apply fault_ok_fits. lia. }
  split; [| split; [| split; [| split; [| split; [| split]]]]].
  - intros tr.
    pose proof (sat_faults _ _ _ _ _ (sat_XXH32 p len Hlen seed) HF) as Hsat.
    destruct (Hsat tr) as [ev [Hsnd [Hev Hres]]].
    destruct (XXH32 (Some p) len seed tr) as [[v | f] tr'];
      cbn [fst snd] in *; [| contradiction].
    exists v, ev. subst tr'. split; [reflexivity |].
    apply event_ok_loads. exact Hev.
  - intros l1 l2 l3 l4. unfold bulk_inv, in_bounds.
    cbn [b_offset b_remaining]. lia.
  - intros s Hinv Hc.
    eapply sat_faults; [| exact HF].
    eapply sat_weaken; [apply sat_bulk_body; assumption |].
    intros s' [H _]. exact H.
  - eapply sat_faults; [| exact HF]. apply sat_bulk. exact Hlen.
  - intros s Hinv Hc.
    eapply sat_faults; [| exact HF].
    eapply sat_weaken; [apply sat_word_body; assumption |].
    intros s' [H _]. exact H.
  - intros s Hinv.
    eapply sat_faults; [| exact HF].
    eapply sat_weaken;
      [apply sat_word_loop; [exact Hlen | exact Hinv | unfold fuel_for; lia] |].
    intros s' [H _]. exact H.
  - intros s Hinv Hc.
    eapply sat_faults; [| exact HF].
    eapply sat_weaken; [apply sat_byte_body; assumption |].
    intros s' [H _]. exact H.
Qed.

Lemma reads_in_bounds_witness :
  exists v ev,
    XXH32 (Some test_data) 101 0 [] = (Ok v, [] ++ ev) /\
    Forall (fun i => 0 <= i < 101) (loads_of ev).
Proof.
  apply (reads_in_bounds test_data 101 0).
  - split; [lia | apply Z.leb_le; vm_compute; reflexivity].
  - unfold SIZE. lia.
Defined.

(** C10. For a 32-bit [value] and [1 <= amount <= 31], [XXH_rotl32]
    returns [(value << amount) | (value >> (32 - amount))] without a
    fault, and this is the circular left rotation of [value] by [amount]:
    a 32-bit value whose bit [i] is bit [(i - amount) mod 32] of [value].
    Every call of [XXH_rotl32] in a run of [XXH32] has its amount among
    1, 7, 11, 12, 13, 17, 18, all of which are between 1 and 31, and no
    run of [XXH32] ends in a shift by 32 bits or more. *)
Theorem rotl_defined (value amount : Z) (input : option (list byte))
        (len seed : Z) (tr : list event) :
  0 <= value < 2 ^ 32 -> 1 <= amount <= 31 -> 0 <= len < SIZE ->
  (exists r,
      XXH_rotl32 value amount tr = (Ok r, tr ++ [EvRotl amount]) /\
      r = Z.lor (Z.shiftl value amount mod 2 ^ 32)
                (Z.shiftr value (32 - amount)) /\
      0 <= r < 2 ^ 32 /\
      forall i, 0 <= i < 32 ->
                Z.testbit r i = Z.testbit value ((i - amount) mod 32)) /\
  (forall a, In a [1; 7; 11; 12; 13; 17; 18] -> 1 <= a <= 31) /\
  (exists ev,
      snd (XXH32 input len seed tr) = tr ++ ev /\
      Forall (fun a => In a [1; 7; 11; 12; 13; 17; 18]) (rotls_of ev) /\
      forall a, fst (XXH32 input len seed tr) <> Fault (ShiftCount a)).
Proof.
  intros Hv Ha Hlen. split; [| split].
  - exists (rotate_left value amount). repeat split.
    + unfold XXH_rotl32, rotate_left, bind, emit, shl32, shr32, ret, sub32.
      rewrite (Z.mod_small (32 - amount)) by (rewrite U32_eq; lia).
      destruct (Z.ltb_spec amount 32); [| lia].
      destruct (Z.ltb_spec (32 - amount) 32); [| lia].
      reflexivity.
    + apply rotate_left_range; assumption.
    + apply rotate_left_range; assumption.
    + intros i Hi. apply rotate_left_bits; assumption.
  - apply rotl_amounts_range.
  - assert (Hsat : sat (event_ok len)
                       (fun f => forall a, f <> ShiftCount a)
                       (fun _ => True) (XXH32 input len seed)).
    { destruct input as [p |].
      - eapply sat_weaken;
          [eapply sat_faults; [apply sat_XXH32; exact Hlen |] |]; auto.
        intros [i | a |]; cbn; [discriminate | contradiction | contradiction].
      - eapply sat_weaken;
          [eapply sat_faults; [apply (sat_avalanche [] len) |] |]; auto.
        intros [i | a |]; cbn; [discriminate | contradiction | contradiction]. }
    destruct (Hsat tr) as [ev [Hsnd [Hev Hres]]].
    exists ev. split; [exact Hsnd |]. split.
    + apply (event_ok_rotls len). exact Hev.
    + intros a Hf. rewrite Hf in Hres. apply (Hres a). reflexivity.
Qed.

Lemma rotl_defined_witness :
  exists r,
    XXH_rotl32 0x80000001 1 [] = (Ok r, [] ++ [EvRotl 1]) /\
    r = Z.lor (Z.shiftl 0x80000001 1 mod 2 ^ 32)
              (Z.shiftr 0x80000001 (32 - 1)) /\
    0 <= r < 2 ^ 32 /\
    forall i, 0 <= i < 32 ->
              Z.testbit r i = Z.testbit 0x80000001 ((i - 1) mod 32).
Proof.
  apply (rotl_defined 0x80000001 1 (Some test_data) 101 0 []).
  - lia.
  - lia.
  - unfold SIZE. lia.
Defined.

(* ================================================================== *)
(** ** Further properties: the mixing steps lose nothing *)

Lemma add_mod_cancel (a b c : Z) :
  (a + c) mod U32 = (b + c) mod U32 -> a mod U32 = b mod U32.
Proof.
  intros H.
  assert (Ha : a mod U32 = ((a + c) mod U32 - c) mod U32).
  { rewrite Zminus_mod_idemp_l. f_equal. lia. }
  assert (Hb : b mod U32 = ((b + c) mod U32 - c) mod U32).
  { rewrite Zminus_mod_idemp_l. f_equal. lia. }
  rewrite Ha, Hb, H. reflexivity.
Qed.

Lemma mul_mod_cancel (c cinv a b : Z) :
  (c * cinv) mod U32 = 1 ->
  (a * c) mod U32 = (b * c) mod U32 -> a mod U32 = b mod U32.
Proof.
  intros Hinv H.
  assert (Hx : forall x, x mod U32 = ((x * c) mod U32 * cinv) mod U32).
  { intros x. rewrite Z.mul_mod_idemp_l by (rewrite U32_eq; lia).
    rewrite <- Z.mul_assoc, <- Z.mul_mod_idemp_r by (rewrite U32_eq; lia).
    rewrite Hinv, Z.mul_1_r. reflexivity. }
  rewrite (Hx a), (Hx b), H. reflexivity.
Qed.

Lemma PRIME32_1_odd : (PRIME32_1 * 0x0E8B2F51) mod U32 = 1.
Proof. reflexivity. Qed.

Lemma PRIME32_2_odd : (PRIME32_2 * 0xB6C92F47) mod U32 = 1.
Proof. reflexivity. Qed.

Lemma PRIME32_3_odd : (PRIME32_3 * 0xA89ED915) mod U32 = 1.
Proof. reflexivity. Qed.

Lemma PRIME32_4_odd : (PRIME32_4 * 0xA0FE3BCF) mod U32 = 1.
Proof. reflexivity. Qed.

Lemma PRIME32_5_odd : (PRIME32_5 * 0xAE398151) mod U32 = 1.
Proof. reflexivity. Qed.

(** Two 32-bit values with the same 32 low bits are equal. *)
Lemma word32_bits_eq (a b : Z) :
  0 <= a < U32 -> 0 <= b < U32 ->
  (forall i, 0 <= i < 32 -> Z.testbit a i = Z.testbit b i) -> a = b.
Proof.
  intros Ha Hb H. apply Z.bits_inj'. intros i Hi.
  destruct (Z.lt_ge_cases i 32) as [Hlt | Hge]; [apply H; lia |].
  rewrite <- (Z.mod_small a (2 ^ 32)), <- (Z.mod_small b (2 ^ 32))
    by assumption.
  rewrite !Z.mod_pow2_bits_high by lia. reflexivity.
Qed.

Lemma lxor_range (a b : Z) :
  0 <= a < U32 -> 0 <= b < U32 -> 0 <= Z.lxor a b < U32.
Proof.
  intros Ha Hb.
  assert (Hnn : 0 <= Z.lxor a b) by (apply Z.lxor_nonneg; lia).
  split; [exact Hnn |].
  assert (Hmod : Z.lxor a b = Z.lxor a b mod 2 ^ 32).
  { apply Z.bits_inj'. intros i Hi.
    destruct (Z.lt_ge_cases i 32) as [Hlt | Hge].
    - rewrite Z.mod_pow2_bits_low by lia. reflexivity.
    - rewrite Z.mod_pow2_bits_high by lia. rewrite Z.lxor_spec.
      rewrite <- (Z.mod_small a (2 ^ 32)), <- (Z.mod_small b (2 ^ 32))
        by assumption.
      rewrite !Z.mod_pow2_bits_high by lia. reflexivity. }
  rewrite Hmod. apply Z.mod_pos_bound. reflexivity.
Qed.

Lemma shiftr_range (a k : Z) :
  0 <= a < U32 -> 0 <= k -> 0 <= Z.shiftr a k < U32.
Proof.
  intros Ha Hk. rewrite Z.shiftr_div_pow2 by assumption.
  assert (Hp : 0 < 2 ^ k) by (apply Z.pow_pos_nonneg; lia).
  split; [apply Z.div_pos; lia |].
  apply Z.div_lt_upper_bound; [assumption | nia].
Qed.

(** [x ^= x >> k] is undone by [y ^ (y >> k) ^ (y >> 2k)] on 32-bit values
    when [3k >= 32]. *)
Lemma xorshift_undo (x k : Z) :
  0 <= x < U32 -> 11 <= k ->
  let y := Z.lxor x (Z.shiftr x k) in
  Z.lxor (Z.lxor y (Z.shiftr y k)) (Z.shiftr y (k + k)) = x.
Proof.
  intros Hx Hk y. subst y.
  rewrite !Z.shiftr_lxor, !Z.shiftr_shiftr by lia.
  assert (H0 : Z.shiftr x (k + (k + k)) = 0).
  { rewrite Z.shiftr_div_pow2 by lia. apply Z.div_small.
    split; [lia |]. apply Z.lt_le_trans with (2 ^ 32); [apply Hx |].
    apply Z.pow_le_mono_r; lia. }
  rewrite H0, Z.lxor_0_r.
  set (a := Z.shiftr x k). set (b := Z.shiftr x (k + k)).
  rewrite (Z.lxor_assoc x a), <- (Z.lxor_assoc a a b).
  rewrite Z.lxor_nilpotent, Z.lxor_0_l.
  rewrite Z.lxor_assoc, Z.lxor_nilpotent, Z.lxor_0_r. reflexivity.
Qed.

Lemma xorshift_inj (x x' k : Z) :
  0 <= x < U32 -> 0 <= x' < U32 -> 11 <= k ->
  Z.lxor x (Z.shiftr x k) = Z.lxor x' (Z.shiftr x' k) -> x = x'.
Proof.
  intros Hx Hx' Hk H.
  rewrite <- (xorshift_undo x k Hx Hk), <- (xorshift_undo x' k Hx' Hk).
  cbv zeta. rewrite H. reflexivity.
Qed.

Lemma avalanche_range (h : Z) : 0 <= avalanche h < U32.
Proof.
  unfold avalanche. apply lxor_range.
  - apply Z.mod_pos_bound. reflexivity.
  - apply shiftr_range; [apply Z.mod_pos_bound; reflexivity | lia].
Qed.

Lemma avalanche_inj (a b : Z) :
  0 <= a < U32 -> 0 <= b < U32 -> avalanche a = avalanche b -> a = b.
Proof.
  intros Ha Hb H. unfold avalanche in H. cbv zeta in H.
  assert (Hu : 0 < U32) by reflexivity.
  pose proof (lxor_range a (Z.shiftr a 15) Ha
                (shiftr_range a 15 Ha ltac:(lia))) as R1a.
  pose proof (lxor_range b (Z.shiftr b 15) Hb
                (shiftr_range b 15 Hb ltac:(lia))) as R1b.
  set (a1 := Z.lxor a (Z.shiftr a 15)) in *.
  set (b1 := Z.lxor b (Z.shiftr b 15)) in *.
  pose proof (Z.mod_pos_bound (a1 * PRIME32_2) U32 Hu) as R2a.
  pose proof (Z.mod_pos_bound (b1 * PRIME32_2) U32 Hu) as R2b.
  set (a2 := (a1 * PRIME32_2) mod U32) in *.
  set (b2 := (b1 * PRIME32_2) mod U32) in *.
  pose proof (lxor_range a2 (Z.shiftr a2 13) R2a
                (shiftr_range a2 13 R2a ltac:(lia))) as R3a.
  pose proof (lxor_range b2 (Z.shiftr b2 13) R2b
                (shiftr_range b2 13 R2b ltac:(lia))) as R3b.
  set (a3 := Z.lxor a2 (Z.shiftr a2 13)) in *.
  set (b3 := Z.lxor b2 (Z.shiftr b2 13)) in *.
  pose proof (Z.mod_pos_bound (a3 * PRIME32_3) U32 Hu) as R4a.
  pose proof (Z.mod_pos_bound (b3 * PRIME32_3) U32 Hu) as R4b.
  set (a4 := (a3 * PRIME32_3) mod U32) in *.
  set (b4 := (b3 * PRIME32_3) mod U32) in *.
  apply xorshift_inj in H; [| assumption | assumption | lia].
  subst a4 b4. apply (mul_mod_cancel _ _ _ _ PRIME32_3_odd) in H.
  rewrite !Z.mod_small in H by assumption.
  subst a3 b3. apply xorshift_inj in H; [| assumption | assumption | lia].
  subst a2 b2. apply (mul_mod_cancel _ _ _ _ PRIME32_2_odd) in H.
  rewrite !Z.mod_small in H by assumption.
  subst a1 b1. apply xorshift_inj in H; [| assumption | assumption | lia].
  exact H.
Qed.

Lemma rotate_left_inj (a b r : Z) :
  0 <= a < U32 -> 0 <= b < U32 -> 1 <= r <= 31 ->
  rotate_left a r = rotate_left b r -> a = b.
Proof.
  intros Ha Hb Hr H. apply word32_bits_eq; try assumption.
  intros i Hi.
  assert (Hj : 0 <= (i + r) mod 32 < 32) by (apply Z.mod_pos_bound; lia).
  assert (Hback : ((i + r) mod 32 - r) mod 32 = i).
  { rewrite Zminus_mod_idemp_l.
    replace (i + r - r) with i by lia. apply Z.mod_small. lia. }
  pose proof (rotate_left_bits a r _ Ha Hr Hj) as Ba.
  pose proof (rotate_left_bits b r _ Hb Hr Hj) as Bb.
  rewrite Hback in Ba, Bb. rewrite <- Ba, <- Bb, H. reflexivity.
Qed.

(** [h] can be read back from [(h + c) mod 2^32], and [w] from
    [(h + w * P) mod 2^32] when [P] is odd. *)
Lemma add_inj_acc (c a b : Z) :
  0 <= a < U32 -> 0 <= b < U32 ->
  (a + c) mod U32 = (b + c) mod U32 -> a = b.
Proof.
  intros Ha Hb H. apply add_mod_cancel in H.
  rewrite !Z.mod_small in H by assumption. exact H.
Qed.

Lemma add_inj_data (P Pinv h w w' : Z) :
  (P * Pinv) mod U32 = 1 ->
  0 <= w < U32 -> 0 <= w' < U32 ->
  (h + w * P) mod U32 = (h + w' * P) mod U32 -> w = w'.
Proof.
  intros HP Hw Hw' H.
  rewrite (Z.add_comm h (w * P)), (Z.add_comm h (w' * P)) in H.
  apply add_mod_cancel in H. apply (mul_mod_cancel _ _ _ _ HP) in H.
  rewrite !Z.mod_small in H by assumption. exact H.
Qed.

(** [x] can be read back from [rotate_left x r * P mod 2^32]. *)
Lemma rotl_mul_inj (P Pinv r x x' : Z) :
  (P * Pinv) mod U32 = 1 -> 1 <= r <= 31 ->
  0 <= x < U32 -> 0 <= x' < U32 ->
  (rotate_left x r * P) mod U32 = (rotate_left x' r * P) mod U32 -> x = x'.
Proof.
  intros HP Hr Hx Hx' H.
  apply (mul_mod_cancel _ _ _ _ HP) in H.
  rewrite !Z.mod_small in H by (apply rotate_left_range; assumption).
  apply (rotate_left_inj x x' r); assumption.
Qed.

Lemma mod_U32_range (x : Z) : 0 <= x mod U32 < U32.
Proof. apply Z.mod_pos_bound. reflexivity. Qed.

Lemma read_u32_le_range (p : list byte) (off : Z) :
  0 <= read_u32_le p off < U32.
Proof.
  unfold read_u32_le.
  pose proof (byte_at_range p off). pose proof (byte_at_range p (off + 1)).
  pose proof (byte_at_range p (off + 2)).
  pose proof (byte_at_range p (off + 3)).
  rewrite U32_eq. lia.
Qed.

Lemma read_u32_le_inj (p q : list byte) (off : Z) :
  read_u32_le p off = read_u32_le q off ->
  forall t, 0 <= t < 4 -> byte_at p (off + t) = byte_at q (off + t).
Proof.
  unfold read_u32_le. intros H t Ht.
  pose proof (byte_at_range p off). pose proof (byte_at_range p (off + 1)).
  pose proof (byte_at_range p (off + 2)).
  pose proof (byte_at_range p (off + 3)).
  pose proof (byte_at_range q off). pose proof (byte_at_range q (off + 1)).
  pose proof (byte_at_range q (off + 2)).
  pose proof (byte_at_range q (off + 3)).
  assert (Ht' : t = 0 \/ t = 1 \/ t = 2 \/ t = 3) by lia.
  destruct Ht' as [-> | [-> | [-> | ->]]]; rewrite ?Z.add_0_r; lia.
Qed.

Lemma read_u32_le_ext (p q : list byte) (off : Z) :
  (forall t, 0 <= t < 4 -> byte_at p (off + t) = byte_at q (off + t)) ->
  read_u32_le p off = read_u32_le q off.
Proof.
  intros H. unfold read_u32_le.
  rewrite <- (H 1), <- (H 2), <- (H 3) by lia.
  pose proof (H 0 ltac:(lia)) as H0. rewrite Z.add_0_r in H0.
  rewrite H0. reflexivity.
Qed.

(** *** The steps, as functions of the accumulator and of the data *)

Lemma round_range (lane w : Z) : 0 <= round lane w < U32.
Proof. apply mod_U32_range. Qed.

Lemma round_inj_lane (w l l' : Z) :
  0 <= l < U32 -> 0 <= l' < U32 -> round l w = round l' w -> l = l'.
Proof.
  unfold round. intros Hl Hl' H.
  apply (rotl_mul_inj _ _ _ _ _ PRIME32_1_odd) in H;
    [| lia | apply mod_U32_range | apply mod_U32_range].
  apply (add_inj_acc _ _ _ Hl Hl' H).
Qed.

Lemma round_inj_input (l w w' : Z) :
  0 <= w < U32 -> 0 <= w' < U32 -> round l w = round l w' -> w = w'.
Proof.
  unfold round. intros Hw Hw' H.
  apply (rotl_mul_inj _ _ _ _ _ PRIME32_1_odd) in H;
    [| lia | apply mod_U32_range | apply mod_U32_range].
  apply (add_inj_data _ _ _ _ _ PRIME32_2_odd Hw Hw' H).
Qed.

Lemma word_step_range (p : list byte) (h off : Z) :
  0 <= word_step p h off < U32.
Proof. apply mod_U32_range. Qed.

Lemma word_step_inj (p : list byte) (off h h' : Z) :
  0 <= h < U32 -> 0 <= h' < U32 ->
  word_step p h off = word_step p h' off -> h = h'.
Proof.
  unfold word_step. intros Hh Hh' H.
  apply (rotl_mul_inj _ _ _ _ _ PRIME32_4_odd) in H;
    [| lia | apply mod_U32_range | apply mod_U32_range].
  apply (add_inj_acc _ _ _ Hh Hh' H).
Qed.

Lemma word_step_data (p q : list byte) (h off : Z) :
  word_step p h off = word_step q h off ->
  read_u32_le p off = read_u32_le q off.
Proof.
  unfold word_step. intros H.
  apply (rotl_mul_inj _ _ _ _ _ PRIME32_4_odd) in H;
    [| lia | apply mod_U32_range | apply mod_U32_range].
  apply (add_inj_data _ _ _ _ _ PRIME32_3_odd
                      (read_u32_le_range p off) (read_u32_le_range q off) H).
Qed.

Lemma byte_step_range (p : list byte) (h off : Z) :
  0 <= byte_step p h off < U32.
Proof. apply mod_U32_range. Qed.

Lemma byte_step_inj (p : list byte) (off h h' : Z) :
  0 <= h < U32 -> 0 <= h' < U32 ->
  byte_step p h off = byte_step p h' off -> h = h'.
Proof.
  unfold byte_step. intros Hh Hh' H.
  apply (rotl_mul_inj _ _ _ _ _ PRIME32_1_odd) in H;
    [| lia | apply mod_U32_range | apply mod_U32_range].
  apply (add_inj_acc _ _ _ Hh Hh' H).
Qed.

Lemma byte_step_data (p q : list byte) (h off : Z) :
  byte_step p h off = byte_step q h off -> byte_at p off = byte_at q off.
Proof.
  unfold byte_step. intros H.
  apply (rotl_mul_inj _ _ _ _ _ PRIME32_1_odd) in H;
    [| lia | apply mod_U32_range | apply mod_U32_range].
  pose proof (byte_at_range p off). pose proof (byte_at_range q off).
  apply (add_inj_data _ _ _ _ _ PRIME32_5_odd) in H;
    [exact H | rewrite U32_eq; lia | rewrite U32_eq; lia].
Qed.

(** *** Folds of steps *)

Section Folds.

(** [f] and [g] are two accumulator steps, for two buffers. *)
Variables f g : Z -> Z -> Z.
Hypothesis f_range : forall h o, 0 <= f h o < U32.
Hypothesis f_inj :
  forall o h h', 0 <= h < U32 -> 0 <= h' < U32 -> f h o = f h' o -> h = h'.

Lemma fold_range (l : list Z) (h : Z) :
  0 <= h < U32 -> 0 <= fold_left f l h < U32.
Proof.
  revert h. induction l as [| o l IH]; intros h Hh; cbn [fold_left].
  - exact Hh.
  - apply IH. apply f_range.
Qed.

Lemma fold_inj (l : list Z) (h h' : Z) :
  0 <= h < U32 -> 0 <= h' < U32 ->
  fold_left f l h = fold_left f l h' -> h = h'.
Proof.
  revert h h'. induction l as [| o l IH]; intros h h' Hh Hh' H;
    cbn [fold_left] in H.
  - exact H.
  - apply IH in H; [| apply f_range | apply f_range].
    apply (f_inj o); assumption.
Qed.

Lemma fold_ext (l : list Z) (h : Z) :
  (forall o, In o l -> forall x, f x o = g x o) ->
  fold_left f l h = fold_left g l h.
Proof.
  revert h. induction l as [| o l IH]; intros h H; cbn [fold_left].
  - reflexivity.
  - rewrite (H o (or_introl eq_refl)). apply IH.
    intros o' Ho'. apply H. right. exact Ho'.
Qed.

(** The two folds differ as soon as the steps differ at one offset and
    agree at the others. *)
Lemma fold_differ (l1 l2 : list Z) (o h : Z) :
  0 <= h < U32 ->
  (forall o', In o' l1 -> forall x, f x o' = g x o') ->
  (forall o', In o' l2 -> forall x, f x o' = g x o') ->
  (forall x, 0 <= x < U32 -> f x o <> g x o) ->
  (forall x, 0 <= g x o < U32) ->
  fold_left f (l1 ++ o :: l2) h <> fold_left g (l1 ++ o :: l2) h.
Proof.
  intros Hh H1 H2 Ho Hg Heq.
  rewrite !fold_left_app in Heq. cbn [fold_left] in Heq.
  rewrite <- (fold_ext l1 h H1) in Heq.
  rewrite <- (fold_ext l2 _ H2) in Heq.
  apply fold_inj in Heq; [| apply f_range | apply Hg].
  apply (Ho (fold_left f l1 h)); [| exact Heq].
  apply fold_range. exact Hh.
Qed.

End Folds.

Lemma steps_split (start step : Z) (n k : nat) :
  (k < n)%nat ->
  steps start step n
  = steps start step k
    ++ (start + Z.of_nat k * step)
    :: steps (start + Z.of_nat k * step + step) step (n - k - 1).
Proof.
  intros Hk.
  replace n with (k + Datatypes.S (n - k - 1))%nat at 1 by lia.
  rewrite steps_app. reflexivity.
Qed.

Lemma steps_In (start step : Z) (n : nat) (x : Z) :
  In x (steps start step n) ->
  exists k, 0 <= k < Z.of_nat n /\ x = start + k * step.
Proof.
  revert start. induction n as [| n IH]; intros start H; cbn [steps In] in H.
  - contradiction.
  - destruct H as [<- | H].
    + exists 0. lia.
    + destruct (IH _ H) as [k [Hk ->]]. exists (k + 1). lia.
Qed.

Lemma fold_peel (f g : Z -> Z -> Z) (l : list Z) (h h' : Z) :
  (forall x o, 0 <= f x o < U32) ->
  (forall o x x', 0 <= x < U32 -> 0 <= x' < U32 -> f x o = f x' o -> x = x') ->
  (forall o, In o l -> forall x, f x o = g x o) ->
  0 <= h < U32 -> 0 <= h' < U32 ->
  fold_left f l h = fold_left g l h' -> h = h'.
Proof.
  intros Hr Hi Hext Hh Hh' H.
  rewrite <- (fold_ext f g l h' Hext) in H.
  apply (fold_inj f Hr Hi l h h' Hh Hh' H).
Qed.

(** *** The lanes, one at a time *)

Lemma lane_step_range (p : list byte) (d x o : Z) :
  0 <= lane_step p d x o < U32.
Proof. apply round_range. Qed.

Lemma lane_step_inj (p : list byte) (d o x x' : Z) :
  0 <= x < U32 -> 0 <= x' < U32 ->
  lane_step p d x o = lane_step p d x' o -> x = x'.
Proof. unfold lane_step. apply round_inj_lane. Qed.

Lemma block_fold_lanes (p : list byte) (l : list Z) (a b c d : Z) :
  fold_left (block_step p) l (a, b, c, d)
  = (fold_left (lane_step p 0) l a, fold_left (lane_step p 4) l b,
     fold_left (lane_step p 8) l c, fold_left (lane_step p 12) l d).
Proof.
  revert a b c d. induction l as [| o l IH]; intros a b c d.
  - reflexivity.
  - cbn [fold_left block_step]. rewrite IH.
    replace (round a (read_u32_le p o)) with (lane_step p 0 a o)
      by (unfold lane_step; rewrite Z.add_0_r; reflexivity).
    reflexivity.
Qed.

Lemma combine_differ (a b c d a' b' c' d' : Z) :
  0 <= a < U32 -> 0 <= b < U32 -> 0 <= c < U32 -> 0 <= d < U32 ->
  0 <= a' < U32 -> 0 <= b' < U32 -> 0 <= c' < U32 -> 0 <= d' < U32 ->
  (a <> a' /\ b = b' /\ c = c' /\ d = d') \/
  (a = a' /\ b <> b' /\ c = c' /\ d = d') \/
  (a = a' /\ b = b' /\ c <> c' /\ d = d') \/
  (a = a' /\ b = b' /\ c = c' /\ d <> d') ->
  combine (a, b, c, d) <> combine (a', b', c', d').
Proof.
  intros Ha Hb Hc Hd Ha' Hb' Hc' Hd' Hcases Heq. unfold combine in Heq.
  pose proof (rotate_left_range a 1 Ha ltac:(lia)).
  pose proof (rotate_left_range a' 1 Ha' ltac:(lia)).
  pose proof (rotate_left_range b 7 Hb ltac:(lia)).
  pose proof (rotate_left_range b' 7 Hb' ltac:(lia)).
  pose proof (rotate_left_range c 12 Hc ltac:(lia)).
  pose proof (rotate_left_range c' 12 Hc' ltac:(lia)).
  pose proof (rotate_left_range d 18 Hd ltac:(lia)).
  pose proof (rotate_left_range d' 18 Hd' ltac:(lia)).
  destruct Hcases as [[Hn [-> [-> ->]]] | [[-> [Hn [-> ->]]] |
                      [[-> [-> [Hn ->]]] | [-> [-> [-> Hn]]]]]];
    apply Hn.
  - apply (rotate_left_inj a a' 1); try assumption; [lia |].
    rewrite <- !Z.add_assoc in Heq.
    apply add_inj_acc in Heq; assumption.
  - apply (rotate_left_inj b b' 7); try assumption; [lia |].
    rewrite (Z.add_comm (rotate_left a' 1) (rotate_left b 7)) in Heq.
    rewrite (Z.add_comm (rotate_left a' 1) (rotate_left b' 7)) in Heq.
    rewrite <- !Z.add_assoc in Heq.
    apply add_inj_acc in Heq; assumption.
  - apply (rotate_left_inj c c' 12); try assumption; [lia |].
    rewrite (Z.add_comm (_ + _) (rotate_left c 12)) in Heq.
    rewrite (Z.add_comm (_ + _) (rotate_left c' 12)) in Heq.
    rewrite <- !Z.add_assoc in Heq.
    apply add_inj_acc in Heq; assumption.
  - rewrite (Z.add_comm _ (rotate_left d 18)) in Heq.
    rewrite (Z.add_comm _ (rotate_left d' 18)) in Heq.
    apply (rotate_left_inj d d' 18); try assumption; [lia |].
    apply add_inj_acc in Heq; assumption.
Qed.

(** *** Two buffers that differ inside one unit only *)

(** The quotients and remainders that place an index in the bulk blocks,
    the tail words or the tail bytes of a [len]-byte input. *)
Ltac len_facts len :=
  pose proof (Z.div_mod len 16 ltac:(lia));
  pose proof (Z.mod_pos_bound len 16 ltac:(lia));
  pose proof (Z.div_mod (len mod 16) 4 ltac:(lia));
  pose proof (Z.mod_pos_bound (len mod 16) 4 ltac:(lia));
  pose proof (Z.div_mod len 4 ltac:(lia));
  pose proof (Z.mod_pos_bound len 4 ltac:(lia)).

Section Change.

(** [p] and [q] hold the same bytes below [len], except perhaps in the
    unit [o, o + w). *)
Variables p q : list byte.
Variables len o w : Z.
Hypothesis Hlen : 0 <= len.
Hypothesis Hsame :
  forall i, 0 <= i < len -> ~ (o <= i < o + w) -> byte_at p i = byte_at q i.

Lemma word_same (x : Z) :
  0 <= x -> x + 4 <= len -> x + 4 <= o \/ o + w <= x ->
  read_u32_le p x = read_u32_le q x.
Proof.
  intros Hx Hl Hout. apply read_u32_le_ext. intros t Ht. apply Hsame; lia.
Qed.

Lemma byte_same (x : Z) :
  0 <= x < len -> x < o \/ o + w <= x -> byte_at p x = byte_at q x.
Proof. intros Hx Hout. apply Hsame; lia. Qed.

Lemma word_steps_same (l : list Z) :
  (forall x, In x l ->
             0 <= x /\ x + 4 <= len /\ (x + 4 <= o \/ o + w <= x)) ->
  forall x, In x l -> forall h, word_step p h x = word_step q h x.
Proof.
  intros Hl x Hx h. destruct (Hl x Hx) as [H0 [H1 H2]].
  unfold word_step. rewrite (word_same x H0 H1 H2). reflexivity.
Qed.

Lemma byte_steps_same (l : list Z) :
  (forall x, In x l -> 0 <= x < len /\ (x < o \/ o + w <= x)) ->
  forall x, In x l -> forall h, byte_step p h x = byte_step q h x.
Proof.
  intros Hl x Hx h. destruct (Hl x Hx) as [H0 H1].
  unfold byte_step. rewrite (byte_same x H0 H1). reflexivity.
Qed.

Lemma lane_steps_same (d : Z) (l : list Z) :
  (forall x, In x l ->
             0 <= x + d /\ x + d + 4 <= len /\
             (x + d + 4 <= o \/ o + w <= x + d)) ->
  forall x, In x l -> forall h, lane_step p d h x = lane_step q d h x.
Proof.
  intros Hl x Hx h. destruct (Hl x Hx) as [H0 [H1 H2]].
  unfold lane_step. rewrite (word_same (x + d) H0 H1 H2). reflexivity.
Qed.

(** The unit lies after the bulk blocks: same accumulator after them. *)
Lemma bulk_hash_same (seed : Z) :
  16 * (len / 16) <= o -> bulk_hash p len seed = bulk_hash q len seed.
Proof.
  intros Ho. unfold bulk_hash. len_facts len.
  destruct (Z.leb_spec 16 len) as [Hge | Hlt]; [| reflexivity].
  unfold init_lanes. rewrite !block_fold_lanes.
  assert (Hl : forall d, 0 <= d <= 12 ->
                         forall x, In x (steps 0 16 (Z.to_nat (len / 16))) ->
                                   0 <= x + d /\ x + d + 4 <= len /\
                                   (x + d + 4 <= o \/ o + w <= x + d)).
  { intros d Hd x Hx. apply steps_In in Hx. destruct Hx as [k [Hk ->]].
    lia. }
  rewrite (fold_ext _ _ _ _ (lane_steps_same 0 _ (Hl 0 ltac:(lia)))).
  rewrite (fold_ext _ _ _ _ (lane_steps_same 4 _ (Hl 4 ltac:(lia)))).
  rewrite (fold_ext _ _ _ _ (lane_steps_same 8 _ (Hl 8 ltac:(lia)))).
  rewrite (fold_ext _ _ _ _ (lane_steps_same 12 _ (Hl 12 ltac:(lia)))).
  reflexivity.
Qed.

(** The unit lies after the tail words: same accumulator after them. *)
Lemma word_fold_same (h : Z) :
  4 * (len / 4) <= o ->
  fold_left (word_step p)
            (steps (16 * (len / 16)) 4 (Z.to_nat (len mod 16 / 4))) h
  = fold_left (word_step q)
              (steps (16 * (len / 16)) 4 (Z.to_nat (len mod 16 / 4))) h.
Proof.
  intros Ho. len_facts len. apply fold_ext. apply word_steps_same.
  intros x Hx. apply steps_In in Hx. destruct Hx as [k [Hk ->]]. lia.
Qed.

(** The unit lies before the tail bytes: they lose nothing. *)
Lemma byte_fold_peel (h h' : Z) :
  o + w <= 4 * (len / 4) ->
  0 <= h < U32 -> 0 <= h' < U32 ->
  fold_left (byte_step p)
            (steps (16 * (len / 16) + 4 * (len mod 16 / 4)) 1
                   (Z.to_nat (len mod 16 mod 4))) h
  = fold_left (byte_step q)
              (steps (16 * (len / 16) + 4 * (len mod 16 / 4)) 1
                     (Z.to_nat (len mod 16 mod 4))) h' ->
  h = h'.
Proof.
  intros Ho Hh Hh'. len_facts len.
  apply (fold_peel (byte_step p) (byte_step q));
    [apply byte_step_range | apply byte_step_inj | | exact Hh | exact Hh'].
  apply byte_steps_same.
  intros x Hx. apply steps_In in Hx. destruct Hx as [k [Hk ->]]. lia.
Qed.

(** The unit lies before the tail words: they lose nothing. *)
Lemma word_fold_peel (h h' : Z) :
  o + w <= 16 * (len / 16) ->
  0 <= h < U32 -> 0 <= h' < U32 ->
  fold_left (word_step p)
            (steps (16 * (len / 16)) 4 (Z.to_nat (len mod 16 / 4))) h
  = fold_left (word_step q)
              (steps (16 * (len / 16)) 4 (Z.to_nat (len mod 16 / 4))) h' ->
  h = h'.
Proof.
  intros Ho Hh Hh'. len_facts len.
  apply (fold_peel (word_step p) (word_step q));
    [apply word_step_range | apply word_step_inj | | exact Hh | exact Hh'].
  apply word_steps_same.
  intros x Hx. apply steps_In in Hx. destruct Hx as [k [Hk ->]]. lia.
Qed.

End Change.

Lemma tail_hash_range (p : list byte) (h off rem : Z) :
  0 <= h < U32 -> 0 <= tail_hash p h off rem < U32.
Proof.
  intros Hh. unfold tail_hash.
  apply (fold_range (byte_step p) (byte_step_range p)).
  apply (fold_range (word_step p) (word_step_range p)). exact Hh.
Qed.

Lemma bulk_hash_range (p : list byte) (len seed : Z) :
  0 <= bulk_hash p len seed < U32.
Proof.
  unfold bulk_hash. destruct (16 <=? len); [| apply mod_U32_range].
  destruct (fold_left _ _ _) as [[[a b] c] d]. apply mod_U32_range.
Qed.

(** A change in one tail byte. *)
Lemma value_differs_tail_byte (p q : list byte) (len seed o : Z) :
  0 <= len ->
  (forall i, 0 <= i < len -> ~ (o <= i < o + 1) ->
             byte_at p i = byte_at q i) ->
  4 * (len / 4) <= o < len ->
  byte_at p o <> byte_at q o ->
  XXH32_value p len seed <> XXH32_value q len seed.
Proof.
  intros Hlen Hsame Ho Hdiff Heq. len_facts len.
  unfold XXH32_value in Heq.
  apply avalanche_inj in Heq;
    [| apply tail_hash_range, mod_U32_range
     | apply tail_hash_range, mod_U32_range].
  unfold tail_hash in Heq.
  rewrite <- (bulk_hash_same p q len o 1 Hsame seed) in Heq by lia.
  rewrite <- (word_fold_same p q len o 1 Hlen Hsame) in Heq by lia.
  set (B := 16 * (len / 16) + 4 * (len mod 16 / 4)) in *.
  rewrite (steps_split B 1 (Z.to_nat (len mod 16 mod 4)) (Z.to_nat (o - B)))
    in Heq by (subst B; lia).
  replace (B + Z.of_nat (Z.to_nat (o - B)) * 1) with o in Heq
    by (subst B; lia).
  revert Heq.
  apply (fold_differ (byte_step p) (byte_step q)
                     (byte_step_range p) (byte_step_inj p)).
  - apply (fold_range (word_step p) (word_step_range p)), mod_U32_range.
  - apply (byte_steps_same p q len o 1 Hsame).
    intros x Hx. apply steps_In in Hx. destruct Hx as [k [Hk ->]].
    subst B. lia.
  - apply (byte_steps_same p q len o 1 Hsame).
    intros x Hx. apply steps_In in Hx. destruct Hx as [k [Hk ->]].
    subst B. lia.
  - intros x _ Hstep. apply Hdiff. apply (byte_step_data p q x o Hstep).
  - intros x. apply byte_step_range.
Qed.

(** A change in one word of the tail. *)
Lemma value_differs_tail_word (p q : list byte) (len seed o : Z) :
  0 <= len ->
  (forall i, 0 <= i < len -> ~ (o <= i < o + 4) ->
             byte_at p i = byte_at q i) ->
  o mod 4 = 0 -> 16 * (len / 16) <= o -> o + 4 <= 4 * (len / 4) ->
  read_u32_le p o <> read_u32_le q o ->
  XXH32_value p len seed <> XXH32_value q len seed.
Proof.
  intros Hlen Hsame Hal Ho1 Ho2 Hdiff Heq. len_facts len.
  pose proof (Z.div_mod o 4 ltac:(lia)) as Hdo.
  unfold XXH32_value in Heq.
  apply avalanche_inj in Heq;
    [| apply tail_hash_range, mod_U32_range
     | apply tail_hash_range, mod_U32_range].
  unfold tail_hash in Heq.
  apply (byte_fold_peel p q len o 4 Hlen Hsame) in Heq;
    [| lia
     | apply (fold_range (word_step p) (word_step_range p)), mod_U32_range
     | apply (fold_range (word_step q) (word_step_range q)), mod_U32_range].
  rewrite <- (bulk_hash_same p q len o 4 Hsame seed) in Heq by lia.
  set (T := 16 * (len / 16)) in *.
  set (k := Z.to_nat (o / 4 - 4 * (len / 16))).
  rewrite (steps_split T 4 (Z.to_nat (len mod 16 / 4)) k) in Heq
    by (subst T k; lia).
  replace (T + Z.of_nat k * 4) with o in Heq by (subst T k; lia).
  revert Heq.
  apply (fold_differ (word_step p) (word_step q)
                     (word_step_range p) (word_step_inj p)).
  - apply mod_U32_range.
  - apply (word_steps_same p q len o 4 Hsame).
    intros x Hx. apply steps_In in Hx. destruct Hx as [i [Hi ->]].
    subst T k. lia.
  - apply (word_steps_same p q len o 4 Hsame).
    intros x Hx. apply steps_In in Hx. destruct Hx as [i [Hi ->]].
    subst T k. lia.
  - intros x _ Hstep. apply Hdiff. apply (word_step_data p q x o Hstep).
  - intros x. apply word_step_range.
Qed.

(** A change in one word of the bulk blocks: the lane that reads it
    changes, the three others do not. *)
Lemma lane_fold_cases (p q : list byte) (len o d init : Z) :
  0 <= len ->
  (forall i, 0 <= i < len -> ~ (o <= i < o + 4) ->
             byte_at p i = byte_at q i) ->
  0 <= o -> o mod 4 = 0 -> o + 4 <= 16 * (len / 16) ->
  read_u32_le p o <> read_u32_le q o ->
  d = 0 \/ d = 4 \/ d = 8 \/ d = 12 ->
  0 <= init < U32 ->
  (o mod 16 = d ->
   fold_left (lane_step p d) (steps 0 16 (Z.to_nat (len / 16))) init
   <> fold_left (lane_step q d) (steps 0 16 (Z.to_nat (len / 16))) init) /\
  (o mod 16 <> d ->
   fold_left (lane_step p d) (steps 0 16 (Z.to_nat (len / 16))) init
   = fold_left (lane_step q d) (steps 0 16 (Z.to_nat (len / 16))) init).
Proof.
  intros Hlen Hsame Ho Hal Ho2 Hdiff Hd Hinit. len_facts len.
  pose proof (Z.div_mod o 4 ltac:(lia)) as Hdo.
  pose proof (Z.div_mod o 16 ltac:(lia)) as Hdo16.
  pose proof (Z.mod_pos_bound o 16 ltac:(lia)) as Hmo16.
  split; intros Hcase.
  - set (k := Z.to_nat (o / 16)).
    rewrite (steps_split 0 16 (Z.to_nat (len / 16)) k) by (subst k; lia).
    apply (fold_differ (lane_step p d) (lane_step q d)
                       (lane_step_range p d) (lane_step_inj p d)).
    + exact Hinit.
    + apply (lane_steps_same p q len o 4 Hsame).
      intros x Hx. apply steps_In in Hx. destruct Hx as [i [Hi ->]].
      subst k. lia.
    + apply (lane_steps_same p q len o 4 Hsame).
      intros x Hx. apply steps_In in Hx. destruct Hx as [i [Hi ->]].
      subst k. lia.
    + intros x _ Hstep. apply Hdiff. unfold lane_step in Hstep.
      replace (0 + Z.of_nat k * 16 + d) with o in Hstep by (subst k; lia).
      apply (round_inj_input x); [apply read_u32_le_range .. | exact Hstep].
    + intros x. apply lane_step_range.
  - apply fold_ext. apply (lane_steps_same p q len o 4 Hsame).
    intros x Hx. apply steps_In in Hx. destruct Hx as [i [Hi ->]].
    lia.
Qed.

Lemma value_differs_bulk_word (p q : list byte) (len seed o : Z) :
  0 <= len ->
  (forall i, 0 <= i < len -> ~ (o <= i < o + 4) ->
             byte_at p i = byte_at q i) ->
  0 <= o -> o mod 4 = 0 -> o + 4 <= 16 * (len / 16) ->
  read_u32_le p o <> read_u32_le q o ->
  XXH32_value p len seed <> XXH32_value q len seed.
Proof.
  intros Hlen Hsame Ho Hal Ho2 Hdiff Heq. len_facts len.
  pose proof (Z.div_mod o 4 ltac:(lia)) as Hdo.
  pose proof (Z.div_mod o 16 ltac:(lia)) as Hdo16.
  pose proof (Z.mod_pos_bound o 16 ltac:(lia)) as Hmo16.
  unfold XXH32_value in Heq.
  apply avalanche_inj in Heq;
    [| apply tail_hash_range, mod_U32_range
     | apply tail_hash_range, mod_U32_range].
  unfold tail_hash in Heq.
  apply (byte_fold_peel p q len o 4 Hlen Hsame) in Heq;
    [| lia
     | apply (fold_range (word_step p) (word_step_range p)), mod_U32_range
     | apply (fold_range (word_step q) (word_step_range q)), mod_U32_range].
  apply (word_fold_peel p q len o 4 Hlen Hsame) in Heq;
    [| lia | apply mod_U32_range | apply mod_U32_range].
  apply add_inj_acc in Heq; [| apply bulk_hash_range | apply bulk_hash_range].
  revert Heq. unfold bulk_hash.
  destruct (Z.leb_spec 16 len) as [Hge | Hlt]; [| lia].
  unfold init_lanes. rewrite !block_fold_lanes.
  assert (Hl : forall d init,
             d = 0 \/ d = 4 \/ d = 8 \/ d = 12 -> 0 <= init < U32 ->
             (o mod 16 = d ->
              fold_left (lane_step p d)
                        (steps 0 16 (Z.to_nat (len / 16))) init
              <> fold_left (lane_step q d)
                           (steps 0 16 (Z.to_nat (len / 16))) init) /\
             (o mod 16 <> d ->
              fold_left (lane_step p d)
                        (steps 0 16 (Z.to_nat (len / 16))) init
              = fold_left (lane_step q d)
                          (steps 0 16 (Z.to_nat (len / 16))) init)).
  { intros d init Hd Hi.
    apply (lane_fold_cases p q len o d init); assumption. }
  assert (Hcases : o mod 16 = 0 \/ o mod 16 = 4 \/ o mod 16 = 8
                   \/ o mod 16 = 12) by lia.
  apply combine_differ;
    try (apply (fold_range _ (lane_step_range _ _)), mod_U32_range).
  destruct (Hl 0 ((seed + PRIME32_1 + PRIME32_2) mod U32)
               ltac:(lia) (mod_U32_range _)) as [D0 S0].
  destruct (Hl 4 ((seed + PRIME32_2) mod U32)
               ltac:(lia) (mod_U32_range _)) as [D4 S4].
  destruct (Hl 8 ((seed + 0) mod U32)
               ltac:(lia) (mod_U32_range _)) as [D8 S8].
  destruct (Hl 12 ((seed - PRIME32_1) mod U32)
               ltac:(lia) (mod_U32_range _)) as [D12 S12].
  destruct Hcases as [Hc | [Hc | [Hc | Hc]]].
  - left. repeat split; [apply D0 | apply S4 | apply S8 | apply S12]; lia.
  - right; left.
    repeat split; [apply S0 | apply D4 | apply S8 | apply S12]; lia.
  - right; right; left.
    repeat split; [apply S0 | apply S4 | apply D8 | apply S12]; lia.
  - right; right; right.
    repeat split; [apply S0 | apply S4 | apply S8 | apply D12]; lia.
Qed.

Lemma value_differs_word (p q : list byte) (len seed o : Z) :
  0 <= len ->
  (forall i, 0 <= i < len -> ~ (o <= i < o + 4) ->
             byte_at p i = byte_at q i) ->
  0 <= o -> o mod 4 = 0 -> o + 4 <= len ->
  read_u32_le p o <> read_u32_le q o ->
  XXH32_value p len seed <> XXH32_value q len seed.
Proof.
  intros Hlen Hsame Ho Hal Ho2 Hdiff. len_facts len.
  pose proof (Z.div_mod o 4 ltac:(lia)) as Hdo.
  destruct (Z.lt_ge_cases o (16 * (len / 16))) as [Hb | Ht].
  - apply (value_differs_bulk_word p q len seed o); try assumption. lia.
  - apply (value_differs_tail_word p q len seed o); try assumption. lia.
Qed.

Lemma value_differs_byte (p q : list byte) (len seed j : Z) :
  0 <= j < len ->
  byte_at p j <> byte_at q j ->
  (forall i, 0 <= i < len -> i <> j -> byte_at p i = byte_at q i) ->
  XXH32_value p len seed <> XXH32_value q len seed.
Proof.
  intros Hj Hdiff Hsame. len_facts len.
  pose proof (Z.div_mod j 4 ltac:(lia)) as Hdj.
  pose proof (Z.mod_pos_bound j 4 ltac:(lia)) as Hmj.
  destruct (Z.lt_ge_cases j (4 * (len / 4))) as [Hw | Hb].
  - apply (value_differs_word p q len seed (4 * (j / 4))).
    + lia.
    + intros i Hi Hout. apply Hsame; lia.
    + lia.
    + rewrite Z.mul_comm. apply Z.mod_mul. lia.
    + lia.
    + intros Hread. apply Hdiff.
      pose proof (read_u32_le_inj p q _ Hread (j mod 4) Hmj) as Hb.
      replace (4 * (j / 4) + j mod 4) with j in Hb by lia. exact Hb.
  - apply (value_differs_tail_byte p q len seed j).
    + lia.
    + intros i Hi Hout. apply Hsame; lia.
    + lia.
    + exact Hdiff.
Qed.

(** For a short input the accumulator starts at [seed + PRIME32_5], and no
    later step loses it. *)
Lemma value_seed_inj (p : list byte) (len s1 s2 : Z) :
  len < 16 -> 0 <= s1 < U32 -> 0 <= s2 < U32 ->
  XXH32_value p len s1 = XXH32_value p len s2 -> s1 = s2.
Proof.
  intros Hlen H1 H2 Heq. unfold XXH32_value in Heq.
  apply avalanche_inj in Heq;
    [| apply tail_hash_range, mod_U32_range
     | apply tail_hash_range, mod_U32_range].
  unfold tail_hash in Heq.
  apply (fold_inj (byte_step p) (byte_step_range p) (byte_step_inj p))
    in Heq;
    [| apply (fold_range (word_step p) (word_step_range p)), mod_U32_range
     | apply (fold_range (word_step p) (word_step_range p)), mod_U32_range].
  apply (fold_inj (word_step p) (word_step_range p) (word_step_inj p))
    in Heq; [| apply mod_U32_range | apply mod_U32_range].
  apply add_inj_acc in Heq; [| apply bulk_hash_range | apply bulk_hash_range].
  unfold bulk_hash in Heq.
  destruct (Z.leb_spec 16 len) as [Hge | _]; [lia |].
  apply add_inj_acc in Heq; assumption.
Qed.

Lemma yields_value_of {A} (m : M A) (a : A) (l : list Z) :
  yields m a l -> value_of m = Ok a.
Proof.
  intros H. unfold value_of. destruct (H []) as [ev [E _]]. rewrite E.
  reflexivity.
Qed.

Lemma rotate_left_back (v a : Z) :
  0 <= v < U32 -> 1 <= a <= 31 ->
  rotate_left (rotate_left v a) (32 - a) = v.
Proof.
  intros Hv Ha.
  pose proof (rotate_left_range v a Hv Ha) as Hr.
  apply word32_bits_eq;
    [apply rotate_left_range; [exact Hr | lia] | exact Hv |].
  intros i Hi.
  rewrite rotate_left_bits by (try assumption; lia).
  rewrite rotate_left_bits;
    [| exact Hv | exact Ha | apply Z.mod_pos_bound; lia].
  f_equal. rewrite Zminus_mod_idemp_l.
  replace (i - (32 - a) - a) with (i + (-1) * 32) by lia.
  rewrite Z.mod_add by lia. apply Z.mod_small. exact Hi.
Qed.

(* ================================================================== *)
(** ** Further properties of the program *)

Lemma null_input_run (len seed : Z) (tr : list event) :
  XXH32 None len seed tr = (Ok (avalanche ((seed + PRIME32_5) mod U32)), tr).
Proof. reflexivity. Qed.

(** X1. A present buffer with [length == 0] is hashed like a null
    pointer: nothing is read, whatever the buffer holds, and the result
    is [avalanche (seed + PRIME32_5)]. *)
Theorem empty_input (p : list byte) (len seed : Z) (tr : list event) :
  XXH32 (Some p) 0 seed tr
  = (Ok (avalanche ((seed + PRIME32_5) mod U32)), tr) /\
  XXH32 (Some p) 0 seed tr = XXH32 None len seed tr.
Proof.
  assert (H : XXH32 (Some p) 0 seed tr
              = (Ok (avalanche ((seed + PRIME32_5) mod U32)), tr)).
  { unfold XXH32, XXH32_bulk, XXH32_tail, fuel_for, bind.
    cbn [Z.leb Z.compare ret hash offset remaining Z.to_nat while
         word_cond byte_cond Z.eqb negb].
    unfold add32, to_u32. rewrite Z.mod_0_l, Z.add_0_r, Z.mod_mod
      by (rewrite U32_eq; lia).
    reflexivity. }
  split; [exact H |]. rewrite H. reflexivity.
Qed.

(** X2. Whatever the buffer, for a [length] in the range of [size_t]:
    the run ends; every byte it reads is at an index below [length]; a
    returned value is a 32-bit value; and the only way to fail is a read
    at an index below [length] that the buffer does not have. *)
Theorem run_outcomes (input : option (list byte)) (len seed : Z)
        (tr : list event) :
  0 <= len < SIZE ->
  exists ev,
    snd (XXH32 input len seed tr) = tr ++ ev /\
    Forall (fun i => 0 <= i < len) (loads_of ev) /\
    match fst (XXH32 input len seed tr) with
    | Ok v => 0 <= v < 2 ^ 32
    | Fault f =>
        exists p i, input = Some p /\ f = OutOfBounds i /\
                    Z.of_nat (length p) <= i < len
    end.
Proof.
  intros Hlen. destruct input as [p |].
  - destruct (sat_XXH32 p len Hlen seed tr) as [ev [Hsnd [Hev Hres]]].
    exists ev. split; [exact Hsnd |]. split.
    + apply event_ok_loads. exact Hev.
    + destruct (fst (XXH32 (Some p) len seed tr)) as [v | f].
      * destruct Hres as [h ->]. apply avalanche_range.
      * destruct f as [i | a |]; cbn in Hres; try contradiction.
        exists p, i. auto.
  - exists []. rewrite null_input_run. cbn [fst snd].
    rewrite app_nil_r. repeat split; try constructor;
      apply avalanche_range.
Qed.

Lemma run_outcomes_witness :
  exists ev,
    snd (XXH32 (Some test_data) 102 0 []) = [] ++ ev /\
    Forall (fun i => 0 <= i < 102) (loads_of ev) /\
    match fst (XXH32 (Some test_data) 102 0 []) with
    | Ok v => 0 <= v < 2 ^ 32
    | Fault f =>
        exists p i, Some test_data = Some p /\ f = OutOfBounds i /\
                    Z.of_nat (length p) <= i < 102
    end.
Proof.
  apply (run_outcomes (Some test_data) 102 0 []).
  unfold SIZE. lia.
Defined.

(** X3. The word [XXH_read32] returns holds the four bytes it read: a
    32-bit value whose byte [k] (bits [8k .. 8k+7]) is [p[offset + k]]. *)
Theorem read32_bytes_back (p : list byte) (off : Z) :
  0 <= off -> off + 3 < Z.of_nat (length p) ->
  Z.of_nat (length p) <= SIZE ->
  exists w,
    value_of (XXH_read32 p off) = Ok w /\
    0 <= w < 2 ^ 32 /\
    byte_at p off = w mod 256 /\
    byte_at p (off + 1) = (w / 2 ^ 8) mod 256 /\
    byte_at p (off + 2) = (w / 2 ^ 16) mod 256 /\
    byte_at p (off + 3) = (w / 2 ^ 24) mod 256.
Proof.
  intros Ho Hp Hs. exists (read_u32_le p off). split.
  - apply (yields_value_of _ _ [off; off + 1; off + 2; off + 3]).
    apply yields_read32; lia.
  - split; [apply read_u32_le_range |].
    unfold read_u32_le.
    pose proof (byte_at_range p off).
    pose proof (byte_at_range p (off + 1)).
    pose proof (byte_at_range p (off + 2)).
    pose proof (byte_at_range p (off + 3)).
    change (2 ^ 8) with 256. change (2 ^ 16) with 65536.
    change (2 ^ 24) with 16777216.
    repeat split; Z.to_euclidean_division_equations; lia.
Qed.

Lemma read32_bytes_back_witness :
  exists w,
    value_of (XXH_read32 test_data 0) = Ok w /\
    0 <= w < 2 ^ 32 /\
    byte_at test_data 0 = w mod 256 /\
    byte_at test_data (0 + 1) = (w / 2 ^ 8) mod 256 /\
    byte_at test_data (0 + 2) = (w / 2 ^ 16) mod 256 /\
    byte_at test_data (0 + 3) = (w / 2 ^ 24) mod 256.
Proof.
  apply (read32_bytes_back test_data 0).
  - lia.
  - vm_compute. reflexivity.
  - apply Z.leb_le. vm_compute. reflexivity.
Defined.






(** X5. For an [amount] that fits [uint32_t], [XXH_rotl32] returns a
    value exactly when [1 <= amount <= 31]: an amount of 0 shifts right
    by 32 and an amount of 32 or more shifts left by it. *)
Theorem rotl32_defined_iff (value amount : Z) (tr : list event) :
  0 <= amount < 2 ^ 32 ->
  ((exists r, fst (XXH_rotl32 value amount tr) = Ok r)
   <-> 1 <= amount <= 31) /\
  (amount = 0 -> fst (XXH_rotl32 value amount tr) = Fault (ShiftCount 32)) /\
  (32 <= amount ->
   fst (XXH_rotl32 value amount tr) = Fault (ShiftCount amount)).
Proof.
  intros Ha.
  assert (H0 : amount = 0 ->
               fst (XXH_rotl32 value amount tr) = Fault (ShiftCount 32)).
  { intros ->. reflexivity. }
  assert (H32 : 32 <= amount ->
                fst (XXH_rotl32 value amount tr)
                = Fault (ShiftCount amount)).
  { intros Hge. unfold XXH_rotl32, bind, emit, shl32.
    destruct (Z.ltb_spec amount 32); [lia | reflexivity]. }
  split; [split | split; assumption].
  - intros [r Hr].
    destruct (Z.eq_dec amount 0) as [Hz | Hnz];
      [rewrite (H0 Hz) in Hr; discriminate |].
    destruct (Z.lt_ge_cases amount 32) as [Hlt | Hge]; [lia |].
    rewrite (H32 Hge) in Hr. discriminate.
  - intros Hin. destruct (yields_rotl value amount Hin tr) as [ev [Hrun _]].
    rewrite Hrun. exists (rotate_left value amount). reflexivity.
Qed.

Lemma rotl32_defined_iff_witness :
  (exists r, fst (XXH_rotl32 5 13 []) = Ok r) <-> 1 <= 13 <= 31.
Proof.
  apply (rotl32_defined_iff 5 13 []). lia.
Defined.

(** X6. Rotating left by [amount] and then by [32 - amount] gives the
    value back. *)
Theorem rotl32_round_trip (value amount : Z) :
  0 <= value < 2 ^ 32 -> 1 <= amount <= 31 ->
  yields (r <- XXH_rotl32 value amount ;; XXH_rotl32 r (32 - amount))
         value [].
Proof.
  intros Hv Ha.
  eapply yields_eq.
  - eapply yields_bind; [apply yields_rotl; lia |].
    apply yields_rotl. lia.
  - apply rotate_left_back; assumption.
  - reflexivity.
Qed.

Lemma rotl32_round_trip_witness :
  yields (r <- XXH_rotl32 0x80000001 7 ;; XXH_rotl32 r (32 - 7))
         0x80000001 [].
Proof.
  apply (rotl32_round_trip 0x80000001 7); lia.
Defined.

(** X7. [XXH32_round] loses nothing: with the same input word, two
    different 32-bit lanes give two different lanes; with the same lane,
    two different 32-bit input words give two different lanes. *)
Theorem round_loses_nothing (lane lane' input input' : Z) :
  0 <= lane < 2 ^ 32 -> 0 <= lane' < 2 ^ 32 ->
  0 <= input < 2 ^ 32 -> 0 <= input' < 2 ^ 32 ->
  (lane <> lane' ->
   value_of (XXH32_round lane input) <> value_of (XXH32_round lane' input)) /\
  (input <> input' ->
   value_of (XXH32_round lane input) <> value_of (XXH32_round lane input')).
Proof.
  intros Hl Hl' Hw Hw'.
  rewrite !(yields_value_of _ _ _ (yields_round _ _)).
  split; intros Hne Heq; apply Hne; injection Heq as Heq.
  - apply (round_inj_lane input); assumption.
  - apply (round_inj_input lane); assumption.
Qed.

Lemma round_loses_nothing_witness :
  value_of (XXH32_round 1 5) <> value_of (XXH32_round 2 5).
Proof.
  apply (round_loses_nothing 1 2 5 5); lia.
Defined.

(** X8. [XXH32_avalanche] returns a 32-bit value and loses nothing: two
    different 32-bit accumulators give two different hashes. *)
Theorem avalanche_loses_nothing (h h' : Z) :
  0 <= h < 2 ^ 32 -> 0 <= h' < 2 ^ 32 -> h <> h' ->
  value_of (XXH32_avalanche h) <> value_of (XXH32_avalanche h') /\
  exists v, value_of (XXH32_avalanche h) = Ok v /\ 0 <= v < 2 ^ 32.
Proof.
  intros Hh Hh' Hne.
  rewrite !(yields_value_of _ _ _ (yields_avalanche _)). split.
  - intros Heq. apply Hne. injection Heq as Heq.
    apply avalanche_inj; assumption.
  - exists (avalanche h). split; [reflexivity | apply avalanche_range].
Qed.

Lemma avalanche_loses_nothing_witness :
  value_of (XXH32_avalanche 0) <> value_of (XXH32_avalanche 1).
Proof.
  apply (avalanche_loses_nothing 0 1); lia.
Defined.

(** X9. With a null input, and with any input shorter than 16 bytes, two
    different 32-bit seeds always give two different hashes. *)
Theorem seed_changes_short_hash (seed seed' : Z) :
  0 <= seed < 2 ^ 32 -> 0 <= seed' < 2 ^ 32 -> seed <> seed' ->
  (forall len : Z,
      value_of (XXH32 None len seed) <> value_of (XXH32 None len seed')) /\
  (forall (p : list byte) (len : Z),
      0 <= len <= Z.of_nat (length p) -> len < 16 ->
      value_of (XXH32 (Some p) len seed)
      <> value_of (XXH32 (Some p) len seed')).
Proof.
  intros Hs Hs' Hne. split.
  - intros len Heq. apply Hne. unfold value_of in Heq.
    rewrite !null_input_run in Heq. cbn [fst] in Heq.
    injection Heq as Heq.
    apply avalanche_inj in Heq; [| apply mod_U32_range ..].
    apply add_inj_acc in Heq; assumption.
  - intros p len Hp Hlen Heq. apply Hne.
    assert (Hsz : len < SIZE) by (unfold SIZE; lia).
    rewrite (yields_value_of _ _ _ (yields_XXH32 p len seed Hp Hsz)) in Heq.
    rewrite (yields_value_of _ _ _ (yields_XXH32 p len seed' Hp Hsz)) in Heq.
    injection Heq as Heq.
    apply (value_seed_inj p len); assumption.
Qed.

Lemma seed_changes_short_hash_witness :
  value_of (XXH32 (Some test_data) 15 0)
  <> value_of (XXH32 (Some test_data) 15 0x9E3779B1).
Proof.
  apply (seed_changes_short_hash 0 0x9E3779B1).
  - lia.
  - lia.
  - lia.
  - split; [lia | apply Z.leb_le; vm_compute; reflexivity].
  - lia.
Defined.

(** X10. Changing one byte of the input always changes the hash: two
    buffers of at least [length] bytes that differ at exactly one index
    below [length] have different hashes, for every seed. *)
Theorem single_byte_change (p q : list byte) (len seed j : Z) :
  0 <= len <= Z.of_nat (length p) -> len <= Z.of_nat (length q) ->
  len < SIZE ->
  0 <= j < len ->
  byte_at p j <> byte_at q j ->
  (forall i, 0 <= i < len -> i <> j -> byte_at p i = byte_at q i) ->
  value_of (XXH32 (Some p) len seed) <> value_of (XXH32 (Some q) len seed).
Proof.
  intros Hp Hq Hs Hj Hdiff Hsame Heq.
  rewrite (yields_value_of _ _ _ (yields_XXH32 p len seed Hp Hs)) in Heq.
  rewrite (yields_value_of _ _ _ (yields_XXH32 q len seed
                                    ltac:(lia) Hs)) in Heq.
  injection Heq as Heq. revert Heq.
  apply (value_differs_byte p q len seed j); assumption.
Qed.

Lemma single_byte_change_witness :
  value_of (XXH32 (Some [x00]) 1 0) <> value_of (XXH32 (Some [x01]) 1 0).
Proof.
  apply (single_byte_change [x00] [x01] 1 0 0).
  - cbn. lia.
  - cbn. lia.
  - unfold SIZE. lia.
  - lia.
  - vm_compute. discriminate.
  - intros i Hi Hne. lia.
Defined.

(** X11. Changing one aligned 32-bit word of the input always changes
    the hash: two buffers of at least [length] bytes that differ
    somewhere in the four bytes at [o], a multiple of 4 with
    [o + 4 <= length], and nowhere else below [length], have different
    hashes, for every seed. *)
Theorem single_word_change (p q : list byte) (len seed o t : Z) :
  0 <= len <= Z.of_nat (length p) -> len <= Z.of_nat (length q) ->
  len < SIZE ->
  0 <= o -> o mod 4 = 0 -> o + 4 <= len ->
  0 <= t < 4 -> byte_at p (o + t) <> byte_at q (o + t) ->
  (forall i, 0 <= i < len -> ~ (o <= i < o + 4) ->
             byte_at p i = byte_at q i) ->
  value_of (XXH32 (Some p) len seed) <> value_of (XXH32 (Some q) len seed).
Proof.
  intros Hp Hq Hs Ho Hal Ho2 Ht Hdiff Hsame Heq.
  rewrite (yields_value_of _ _ _ (yields_XXH32 p len seed Hp Hs)) in Heq.
  rewrite (yields_value_of _ _ _ (yields_XXH32 q len seed
                                    ltac:(lia) Hs)) in Heq.
  injection Heq as Heq. revert Heq.
  apply (value_differs_word p q len seed o); try assumption; [lia |].
  intros Hread. apply Hdiff. apply (read_u32_le_inj p q o Hread t Ht).
Qed.

Lemma single_word_change_witness :
  value_of (XXH32 (Some [x00; x00; x00; x00; x07]) 5 0)
  <> value_of (XXH32 (Some [x00; x01; x02; x00; x07]) 5 0).
Proof.
  apply (single_word_change [x00; x00; x00; x00; x07]
                            [x00; x01; x02; x00; x07] 5 0 0 1).
  - cbn. lia.
  - cbn. lia.
  - unfold SIZE. lia.
  - lia.
  - reflexivity.
  - lia.
  - lia.
  - vm_compute. discriminate.
  - intros i Hi Hout. assert (Hi4 : i = 4) by lia. subst i. reflexivity.
Defined.
